(** * pubsub: the connection actor of [client.go]

    A shallow embedding of [client.go] (package [hub]): the tunable
    constants, the [Client] record and its methods, the inbound pump
    [listenRead] and the exit path of the outbound pump [listenWrite],
    followed by the properties of the specification that concern them. *)

From Stdlib Require Import ZArith.
From stdpp Require Import base numbers list strings gmap fin_maps.

Open Scope string_scope.
Open Scope list_scope.

(** ** Tunable constants (client.go, lines 10-22) *)

Module Duration.
(** [time.Duration] is an [int64] count of nanoseconds; arithmetic on it
    wraps around. *)
Definition wrap64 (x : Z) : Z := ((x + 2 ^ 63) mod 2 ^ 64 - 2 ^ 63)%Z.
Definition mul (a b : Z) : Z := wrap64 (a * b).
(** Go's integer division truncates towards zero. *)
Definition div (a b : Z) : Z := wrap64 (Z.quot a b).

Definition Nanosecond : Z := 1%Z.
Definition Microsecond : Z := mul 1000 Nanosecond.
Definition Millisecond : Z := mul 1000 Microsecond.
Definition Second : Z := mul 1000 Millisecond.
End Duration.

(** [writeWait = 10 * time.Second] *)
Definition writeWait : Z := Duration.mul 10 Duration.Second.
(** [pongWait = 30 * time.Second] *)
Definition pongWait : Z := Duration.mul 30 Duration.Second.
(** [pingPeriod = (pongWait * 9) / 10] *)
Definition pingPeriod : Z := Duration.div (Duration.mul pongWait 9) 10.
(** [maxMessageSize int64 = 512] *)
Definition maxMessageSize : Z := 512%Z.

(** ** Go slices of strings

    A slice is a window of [len] elements on a backing array; the capacity
    is the length of the array.  Two slice values built from one another
    by reslicing share the array, so a write through one is seen through
    the other. *)

Record Slice := mkSlice { backing : list string; len : nat }.

Definition nilSlice : Slice := mkSlice [] 0.

(** The elements the slice shows: [s[0], ..., s[len-1]]. *)
Definition view (s : Slice) : list string := take (len s) (backing s).

Definition cap (s : Slice) : nat := length (backing s).

Definition wfSlice (s : Slice) : Prop := len s <= cap s.

(** [append(s, x)]: in place when there is spare capacity, otherwise on a
    newly allocated array (whose spare capacity, chosen by the runtime, is
    never read here and is left out). *)
Definition append1 (s : Slice) (x : string) : Slice :=
  if decide (len s < cap s)
  then mkSlice (<[len s := x]> (backing s)) (S (len s))
  else mkSlice (view s ++ [x]) (S (len s)).

(** [append(s[:i], s[i+1:]...)] for [i < len s]: [s[:i]] keeps the capacity
    of [s], so the [len s - i - 1] elements of [s[i+1:]] are moved down by
    one inside the same array; the cell at [len s - 1] and everything
    behind it keep their old contents. *)
Definition spliceOut (s : Slice) (i : nat) : Slice :=
  mkSlice (take i (backing s) ++ drop (S i) (view s) ++ drop (len s - 1) (backing s))
          (len s - 1).

(** ** The transport and the outbound queue

    [*websocket.Conn] belongs to the gorilla library.  Of it the model
    keeps whether the connection is closed, how often [Close] was called,
    the read limit, and whether closing it reports an error although it
    was open ([wsCloseFails], a property of the network).  [Close] on a
    connection that is already closed returns an error, which is the case
    [close] logs as "websocket was already closed". *)

Record Conn := mkConn {
  wsClosed : bool;
  wsCloseCalls : nat;
  wsReadLimit : Z;
  wsCloseFails : bool
}.

Definition openConn : Conn := mkConn false 0 0 false.

(** [ws.Close()]: the new connection state and [true] when an error is
    returned. *)
Definition wsClose (ws : Conn) : Conn * bool :=
  (mkConn true (S (wsCloseCalls ws)) (wsReadLimit ws) (wsCloseFails ws),
   wsClosed ws || wsCloseFails ws).

Definition wsSetReadLimit (n : Z) (ws : Conn) : Conn :=
  mkConn (wsClosed ws) (wsCloseCalls ws) n (wsCloseFails ws).

(** [chan []byte]: capacity, buffered payloads, and how many times
    [close(ch)] was executed.  Go panics on the second [close] of a
    channel, so [chCloses <= 1] is freedom from that panic. *)
Record Chan := mkChan { chCap : nat; chBuf : list string; chCloses : nat }.

Definition makeChan (n : nat) : Chan := mkChan n [] 0.
Definition chanClose (ch : Chan) : Chan := mkChan (chCap ch) (chBuf ch) (S (chCloses ch)).
Definition chClosed (ch : Chan) : bool := bool_decide (0 < chCloses ch).

(** ** Subscription and Client (client.go, lines 24-48) *)

(** [Subscription{Topic, Client}]; the client pointer is represented by the
    client's [ID]. *)
Record Subscription := mkSubscription { Topic : string; SubClient : string }.

Record Client := mkClient {
  ID : string;
  ws : Conn;
  closed : bool;
  send : Chan;
  Topics : Slice
}.

(** [NewClient(ws, h, ID)]: [closed] and [Topics] take their zero values. *)
Definition NewClient (conn : Conn) (id : string) : Client :=
  mkClient id conn false (makeChan 256) nilSlice.

(** ** Messages on the Hub's channels

    [c.hub.subscribe], [c.hub.unsubscribe] and [c.hub.unregister] carry a
    [*Subscription] or a [*Client]. *)

Inductive ChanMsg :=
| MsgSubscribe (s : Subscription)
| MsgUnsubscribe (s : Subscription)
| MsgUnregister (id : string).

(** What [ws.ReadMessage()] returns: a payload, or an error, for which
    [websocket.IsUnexpectedCloseError(err, CloseGoingAway,
    CloseAbnormalClosure)] is recorded. *)
Inductive ReadResult :=
| ReadMsg (payload : string)
| ReadErr (unexpectedClose : bool).

(** gorilla's message types. *)
Definition TextMessage : Z := 1%Z.
Definition CloseMessage : Z := 8%Z.
Definition PingMessage : Z := 9%Z.

(** [PublishMessage], [ActionMessage] and [SubscriptionsMessage] are
    declared outside client.go.  The message handed to [Hub.Publish] stays
    abstract, and the three [json.Unmarshal] calls of [listenRead] are
    parameters: [None] is a decode error, [Some] carries the field that
    [listenRead] reads from the decoded value ([actionMessage.Action],
    [subMsg.Topics], the whole of [pubMsg]). *)
Record Decoders (PublishMessage : Type) := mkDecoders {
  unmarshalAction : string -> option string;
  unmarshalSubscriptions : string -> option (list string);
  unmarshalPublish : string -> option PublishMessage
}.
Arguments mkDecoders {PublishMessage}.
Arguments unmarshalAction {PublishMessage}.
Arguments unmarshalSubscriptions {PublishMessage}.
Arguments unmarshalPublish {PublishMessage}.

Section Model.

Context {PublishMessage : Type}.
Variable json : Decoders PublishMessage.

(** Everything the connection does that can be seen from outside, in the
    order it happens: lines written to [c.hub.log], sends on the Hub's
    channels, calls of [c.hub.Publish], frames written to the socket. *)
Inductive Event :=
| EvLog (line : string) (args : list string)
| EvSend (m : ChanMsg)
| EvPublish (m : PublishMessage)
| EvWrite (mt : Z) (payload : string).

(** The state shared by the two pumps of one connection and the Hub.

    - [cli]: the [Client] value behind the pointer [c];
    - [subscribers]: the Hub's topic table, topic to subscriber IDs;
    - [chanCap]: the capacity of the Hub's channels ([0]: unbuffered);
    - [inbox]: messages the pump has sent and the Hub has not yet
      finished handling, oldest first;
    - [trace]: the events so far;
    - [oracle]: the scheduler's choices, see [yield]. *)
Record World := mkWorld {
  cli : Client;
  subscribers : gmap string (gset string);
  chanCap : nat;
  inbox : list ChanMsg;
  trace : list Event;
  oracle : list nat
}.

Definition setCli (c : Client) (w : World) : World :=
  mkWorld c (subscribers w) (chanCap w) (inbox w) (trace w) (oracle w).
Definition setSubscribers (t : gmap string (gset string)) (w : World) : World :=
  mkWorld (cli w) t (chanCap w) (inbox w) (trace w) (oracle w).
Definition setInbox (q : list ChanMsg) (w : World) : World :=
  mkWorld (cli w) (subscribers w) (chanCap w) q (trace w) (oracle w).
Definition setOracle (o : list nat) (w : World) : World :=
  mkWorld (cli w) (subscribers w) (chanCap w) (inbox w) (trace w) o.
Definition emit (e : Event) (w : World) : World :=
  mkWorld (cli w) (subscribers w) (chanCap w) (inbox w) (trace w ++ [e]) (oracle w).

Definition setTopics (s : Slice) (c : Client) : Client :=
  mkClient (ID c) (ws c) (closed c) (send c) s.
Definition setWs (x : Conn) (c : Client) : Client :=
  mkClient (ID c) x (closed c) (send c) (Topics c).
Definition setClosed (b : bool) (c : Client) : Client :=
  mkClient (ID c) (ws c) b (send c) (Topics c).
Definition setSend (ch : Chan) (c : Client) : Client :=
  mkClient (ID c) (ws c) (closed c) ch (Topics c).

(** The connection's topic list as a reader of [c.Topics] sees it. *)
Definition topicsOf (w : World) : list string := view (Topics (cli w)).

(** ** Client methods (client.go, lines 50-115) *)

(** [c.Topics = append(c.Topics, topic)] *)
Definition AddTopic (topic : string) (w : World) : World :=
  setCli (setTopics (append1 (Topics (cli w)) topic) (cli w)) w.

(** The search loop of [RemoveTopic]: the index of the first element equal
    to [topic], counting from [idx], or [-1]. *)
Fixpoint rangeFind (topic : string) (ts : list string) (idx : Z) : Z :=
  match ts with
  | [] => (-1)%Z
  | t :: ts' => if decide (t = topic) then idx else rangeFind topic ts' (idx + 1)%Z
  end.

Definition RemoveTopic (topic : string) (w : World) : World :=
  let c := cli w in
  let foundIdx := rangeFind topic (view (Topics c)) 0 in
  if decide (foundIdx ≠ (-1)%Z) then
    let w1 := emit (EvLog "[DEBUG] removing topic %s from client %s"
                      [nth (Z.to_nat foundIdx) (view (Topics c)) ""; ID c]) w in
    setCli (setTopics (spliceOut (Topics c) (Z.to_nat foundIdx)) c) w1
  else w.

(** [close]: closes the websocket and, when that succeeded, the send
    channel; sets the guard in both cases. *)
Definition close (w : World) : World :=
  let c := cli w in
  if closed c then w
  else
    let '(ws', err) := wsClose (ws c) in
    let c1 := setWs ws' c in
    let w1 :=
      if err
      then emit (EvLog "[DEBUG] websocket was already closed:" []) (setCli c1 w)
      else
        let w2 := emit (EvLog "[DEBUG] websocket closed." []) (setCli c1 w) in
        let w3 := emit (EvLog "[DEBUG] closing connection's send channel." []) w2 in
        setCli (setSend (chanClose (send c1)) c1) w3 in
    setCli (setClosed true (cli w1)) w1.

(** ** The Hub's side *)

Definition subscribersOf (topic : string) (w : World) : gset string :=
  default ∅ (subscribers w !! topic).

(** The Hub's handlers for the messages on its channels are in hub.go,
    which is not among the sources.  Their effect on the topic table
    follows section 4.1 of the specification: Subscribe inserts the
    connection into the topic's subscriber set, creating the entry if
    absent; Unsubscribe removes it and erases an entry that became empty;
    Unregister removes the connection from every topic, drops its topic
    list and closes it.  The connection's own topic list is changed through
    the client's methods [AddTopic] and [RemoveTopic] as client.go defines
    them.  [AddTopic] itself tests nothing; the test of section 4.1 (the
    topic is appended "if not already present") is the handler's. *)

(** Modelled from the spec: the Hub's handler of Subscribe (hub.go).  It
    inserts the connection into the topic's subscriber set, creating the
    entry if absent, and appends the topic to the connection's topic list,
    by [AddTopic], if it is not already present (section 4.1). *)
Definition doSubscribe (s : Subscription) (w : World) : World :=
  let ids := {[SubClient s]} ∪ subscribersOf (Topic s) w in
  let w1 := setSubscribers (<[Topic s := ids]> (subscribers w)) w in
  if decide (Topic s ∈ topicsOf w) then w1 else AddTopic (Topic s) w1.

(** Modelled from the spec: the Hub's handler of Unsubscribe (hub.go); the
    subscriber set after section 4.1, the topic list through [RemoveTopic]. *)
Definition doUnsubscribe (s : Subscription) (w : World) : World :=
  let ids := subscribersOf (Topic s) w ∖ {[SubClient s]} in
  let table :=
    if decide (ids = ∅) then delete (Topic s) (subscribers w)
    else <[Topic s := ids]> (subscribers w) in
  RemoveTopic (Topic s) (setSubscribers table w).

(** Modelled from the spec: a subscriber set without [id], or nothing when
    that leaves it empty (the Hub erases empty entries, section 4.1). *)
Definition dropSubscriber (id : string) (ids : gset string) : option (gset string) :=
  let ids' := ids ∖ {[id]} in
  if decide (ids' = ∅) then None else Some ids'.

(** Modelled from the spec: the Hub's handler of Unregister (hub.go): out
    of every subscriber set, topic list dropped, then [close]. *)
Definition doUnregister (id : string) (w : World) : World :=
  let w1 := setSubscribers (omap (dropSubscriber id) (subscribers w)) w in
  close (setCli (setTopics nilSlice (cli w1)) w1).

(** Modelled from the spec: the Hub's event loop dispatches on the channel
    the message arrived on (hub.go). *)
Definition hubHandle (m : ChanMsg) (w : World) : World :=
  match m with
  | MsgSubscribe s => doSubscribe s w
  | MsgUnsubscribe s => doUnsubscribe s w
  | MsgUnregister id => doUnregister id w
  end.

(** The Hub handles the messages one at a time, in arrival order, each to
    completion: [hubSteps k pending w] handles the first [k] of them. *)
Fixpoint hubSteps (k : nat) (pending : list ChanMsg) (w : World) {struct pending} : World :=
  match pending with
  | [] => setInbox [] w
  | m :: rest =>
    match k with
    | 0 => setInbox pending w
    | S k' => hubSteps k' rest (hubHandle m (setInbox rest w))
    end
  end.

Definition hubRun (k : nat) (w : World) : World := hubSteps k (inbox w) w.

(** The Hub catches up with everything sent so far. *)
Definition hubDrain (w : World) : World := hubRun (length (inbox w)) w.

(** A point at which the Hub's goroutine may run while the pump is between
    two of its own steps: it handles as many pending messages as the next
    number of the oracle says (none once the oracle is used up). *)
Definition yield (w : World) : World :=
  match oracle w with
  | [] => w
  | k :: o => hubRun k (setOracle o w)
  end.

(** [ch <- m] on a channel of the Hub: the send returns once the message is
    buffered or, on an unbuffered channel, received.  The Hub receives a
    message only when it is done with the one before, so on return at most
    [chanCap] older messages are still unhandled. *)
Definition chanSend (m : ChanMsg) (w : World) : World :=
  let w1 := hubRun (length (inbox w) - chanCap w) w in
  emit (EvSend m) (setInbox (inbox w1 ++ [m]) w1).

(** ** The pump's side (client.go, lines 73-101) *)

Definition Subscribe (topic : string) (w : World) : World :=
  chanSend (MsgSubscribe (mkSubscription topic (ID (cli w)))) w.

Fixpoint SubscribeMultiple (topics : list string) (w : World) : World :=
  match topics with
  | [] => w
  | topic :: rest => SubscribeMultiple rest (Subscribe topic w)
  end.

Definition Unsubscribe (topic : string) (w : World) : World :=
  chanSend (MsgUnsubscribe (mkSubscription topic (ID (cli w)))) w.

(** [for _, topic := range c.Topics { c.Unsubscribe(topic) }].

    Go evaluates the range expression once: the loop keeps the length
    [n] and the array of [c.Topics] as they were at its start, and reads
    element [i] from that array when iteration [i] begins.  Meanwhile the
    Hub, in its own goroutine, handles the Unsubscribe messages already
    sent, and [RemoveTopic] moves elements inside that same array.
    [rangeUnsubscribe n i] runs the [n] remaining iterations from index [i];
    the element is read from the array [c.Topics] points to at this time,
    which is the array of the loop as long as the Hub handles nothing but
    removals during the loop ([spliceOut] never reallocates).

    The read of a cell and the Hub's handling of a message are steps that
    do not overlap here.  client.go does not synchronise them: where the
    read of a cell coincides with [RemoveTopic] moving into that same
    cell, Go may also deliver a string torn between the old and the new
    value, which this model does not produce. *)
Fixpoint rangeUnsubscribe (n i : nat) (w : World) : World :=
  match n with
  | 0 => w
  | S n' =>
    let w1 := yield w in
    let topic := nth i (backing (Topics (cli w1))) "" in
    rangeUnsubscribe n' (S i) (Unsubscribe topic w1)
  end.

Definition UnsubscribeAll (w : World) : World :=
  rangeUnsubscribe (len (Topics (cli w))) 0 w.

(** ** listenRead (client.go, lines 118-179) *)

Definition invalidData : Event := EvLog "[ERROR] invalid data sent for subscription:%v\n" [].

(** [c.hub.Publish] applied to the decoded message: a call of a Hub method
    that is not among the sources.  Only the call is recorded; what the
    Hub does with the message (fan-out onto the outbound queues of the
    subscribers, eviction of a connection whose queue is full) is not
    part of this model. *)
Definition Publish (m : PublishMessage) (w : World) : World := emit (EvPublish m) w.

(** The body of the loop once [ReadMessage] has returned [payload]. *)
Definition handleMessage (payload : string) (w : World) : World :=
  match unmarshalAction json payload with
  | None => emit invalidData w
  | Some action =>
    if decide (action = "subscribe") then
      let w1 := emit (EvLog "[DEBUG] Client %s is subscribing. Removing all old subscriptions."
                        [ID (cli w)]) w in
      let w2 := UnsubscribeAll w1 in
      match unmarshalSubscriptions json payload with
      | None => emit invalidData w2
      | Some topics => SubscribeMultiple topics w2
      end
    else
      match unmarshalPublish json payload with
      | None => emit invalidData w
      | Some pubMsg => Publish pubMsg w
      end
  end.

(** The [for] loop over the results of [ReadMessage]; the flag tells
    whether the loop was left ([break]) or the pump is still blocked in
    [ReadMessage] after the last result.  A frame is taken to arrive after
    the Hub has handled what the pump sent for the frames before it.
    What the library does inside [ReadMessage] besides returning (answering
    a close or an oversized frame on the socket, running the pong handler)
    is not part of this model. *)
Fixpoint readLoop (reads : list ReadResult) (w : World) : World * bool :=
  match reads with
  | [] => (w, false)
  | ReadErr unexpectedClose :: _ =>
    (emit (if unexpectedClose
           then EvLog "[DEBUG] read message error. Client probably closed connection:" []
           else EvLog "[DEBUG] Unexpected error: %v" []) w, true)
  | ReadMsg payload :: rest => readLoop rest (handleMessage payload (hubDrain w))
  end.

(** The deferred function of [listenRead]. *)
Definition listenReadDeferred (w : World) : World :=
  chanSend (MsgUnregister (ID (cli w)))
    (emit (EvLog "[DEBUG] Calling unregister from listenRead" []) w).

(** [listenRead]: the set-up, the loop, and the deferred function when the
    loop is left.  Read deadlines are real time; they show here through
    the results of [ReadMessage] only.  [SetReadDeadline] fails on a closed
    connection. *)
Definition listenRead (reads : list ReadResult) (w : World) : World * bool :=
  let w1 := setCli (setWs (wsSetReadLimit maxMessageSize (ws (cli w))) (cli w)) w in
  let w2 := if wsClosed (ws (cli w1))
            then emit (EvLog "[ERROR] failed to set socket read deadline:" []) w1
            else w1 in
  let '(w3, exited) := readLoop reads w2 in
  if exited then (listenReadDeferred w3, true) else (w3, false).

(** ** listenWrite (client.go, lines 182-222) *)

(** One turn of the [select]: the case taken, and whether the [write] it
    leads to succeeds. *)
Inductive WriteStep :=
| FromSend (writeOk : bool)
| FromTicker (writeOk : bool).

Fixpoint writeLoop (steps : list WriteStep) (w : World) : World * bool :=
  match steps with
  | [] => (w, false)
  | FromSend writeOk :: rest =>
    let c := cli w in
    match chBuf (send c) with
    | message :: buf =>
      let w1 := setCli (setSend (mkChan (chCap (send c)) buf (chCloses (send c))) c) w in
      if writeOk then writeLoop rest (emit (EvWrite TextMessage message) w1)
      else (emit (EvLog "[ERROR] failed to write socket message:" []) w1, true)
    | [] =>
      if chClosed (send c) then
        (if writeOk then emit (EvWrite CloseMessage "") w
         else emit (EvLog "[ERROR] socket already closed:" []) w, true)
      else writeLoop rest w
    end
  | FromTicker writeOk :: rest =>
    if writeOk then writeLoop rest (emit (EvWrite PingMessage "") w)
    else (emit (EvLog "[ERROR] failed to ping socket:" []) w, true)
  end.

(** The deferred function of [listenWrite]: [ticker.Stop(); c.ws.Close()]. *)
Definition listenWriteDeferred (w : World) : World :=
  setCli (setWs (fst (wsClose (ws (cli w)))) (cli w)) w.

Definition listenWrite (steps : list WriteStep) (w : World) : World * bool :=
  let '(w1, returned) := writeLoop steps w in
  if returned then (listenWriteDeferred w1, true) else (w1, false).

(** A connection as [NewClient] makes it, with an empty Hub. *)
Definition newWorld (id : string) (capacity : nat) (sched : list nat) : World :=
  mkWorld (NewClient openConn id) ∅ capacity [] [] sched.

End Model.

(** * Notions used in the statements *)

(** The list a slice shows after the first occurrence of [x] is cut out. *)
Fixpoint removeFirst (x : string) (l : list string) : list string :=
  match l with
  | [] => []
  | y :: l' => if decide (y = x) then l' else y :: removeFirst x l'
  end.

(** A topic list with [t] appended unless it is there already. *)
Definition addTopicOnce (l : list string) (t : string) : list string :=
  if decide (t ∈ l) then l else l ++ [t].

(** How often [x] occurs in [l]. *)
Definition occurrences (x : string) (l : list string) : nat :=
  length (filter (λ y, y = x) l).

(** Who asks for the connection to be closed: the read pump, whose
    Unregister the Hub handles; the write pump, on leaving [listenWrite];
    the Hub itself, evicting the connection by calling [close]. *)
Inductive CloseRequest := ByReadPump | ByWritePump | ByHub.

#[local] Instance CloseRequest_eq_dec : EqDecision CloseRequest.
Proof. solve_decision. Defined.

(** The messages [Unsubscribe] and [Subscribe] send for client [id]. *)
Definition unsubscribeMsg (id topic : string) : ChanMsg :=
  MsgUnsubscribe (mkSubscription topic id).

Definition subscribeMsg (id topic : string) : ChanMsg :=
  MsgSubscribe (mkSubscription topic id).

(** A frame that is not a close frame. *)
Definition notCloseFrame (f : Z * string) : Prop := f.1 ≠ CloseMessage.

Section Notions.
Context {PublishMessage : Type}.
Local Abbreviation World := (@World PublishMessage).
Local Abbreviation Event := (@Event PublishMessage).

(** The connection's topic list is a slice within its array. *)
Definition wfWorld (w : World) : Prop := wfSlice (Topics (cli w)).

(** Kinds of events. *)
Definition isLog (e : Event) : Prop :=
  match e with EvLog _ _ => True | _ => False end.

(** [w'] continues [w]: the same client identity and channel capacity, and
    a trace that grew by events which all satisfy [Q]. *)
Definition evolves (Q : Event -> Prop) (w w' : World) : Prop :=
  ID (cli w') = ID (cli w) /\ chanCap w' = chanCap w /\
  exists tr, trace w' = trace w ++ tr /\ Forall Q tr.

(** Any message but Unregister. *)
Definition notUnregister (m : ChanMsg) : Prop :=
  match m with MsgUnregister _ => False | _ => True end.

(** No Unregister is waiting to be handled by the Hub. *)
Definition calm (w : World) : Prop := Forall notUnregister (inbox w).

(** The transport, the close guard and the outbound queue are the same. *)
Definition sameConn (w w' : World) : Prop :=
  ws (cli w') = ws (cli w) /\ closed (cli w') = closed (cli w) /\
  send (cli w') = send (cli w).

Definition isUnsubscribeSend (e : Event) : Prop :=
  match e with EvSend (MsgUnsubscribe _) => True | _ => False end.

Definition isSubscribeSend (e : Event) : Prop :=
  match e with EvSend (MsgSubscribe _) => True | _ => False end.

Definition isUnregisterSend (e : Event) : Prop :=
  match e with EvSend (MsgUnregister _) => True | _ => False end.

(** The three ways in which a payload fails to decode in [listenRead]: as
    the action envelope; as the subscribe variant, after the envelope gave
    the action "subscribe"; as the publish variant, after the envelope gave
    any other action. *)
Definition decodeFails (json : Decoders PublishMessage) (payload : string) : Prop :=
  unmarshalAction json payload = None \/
  (unmarshalAction json payload = Some "subscribe" /\
   unmarshalSubscriptions json payload = None) \/
  (exists action, unmarshalAction json payload = Some action /\
                  action ≠ "subscribe" /\ unmarshalPublish json payload = None).

(** What a close request runs: the Hub's handler of the read pump's
    Unregister, the deferred function of [listenWrite], or [close]. *)
Definition closeRequest (r : CloseRequest) (w : World) : World :=
  match r with
  | ByReadPump => hubHandle (MsgUnregister (ID (cli w))) w
  | ByWritePump => listenWriteDeferred w
  | ByHub => close w
  end.

(** The requests take effect one after the other.  The Hub calls [close]
    from its event loop only, and [ws.Close] is a single call on the
    transport, so every interleaving of the three sources is such a
    sequence. *)
Fixpoint closeRequests (rs : list CloseRequest) (w : World) : World :=
  match rs with
  | [] => w
  | r :: rest => closeRequests rest (closeRequest r w)
  end.

(** How many of the requests come from the write pump. *)
Definition writePumpExits (rs : list CloseRequest) : nat :=
  length (filter (λ r, r = ByWritePump) rs).

(** The invariant of the guard: the queue was closed at most once, and not
    at all while the guard is unset; the transport's [Close] was called
    once under the guard at most, and once per exit of the write pump. *)
Definition guardInv (base exits : nat) (w : World) : Prop :=
  chCloses (send (cli w)) <= (if closed (cli w) then 1 else 0) /\
  wsCloseCalls (ws (cli w)) <= base + (if closed (cli w) then 1 else 0) + exits.

(** The messages sent on the Hub's channels, in order. *)
Definition sends (tr : list Event) : list ChanMsg :=
  omap (fun e => match e with EvSend m => Some m | _ => None end) tr.

(** The topics of the Unsubscribe messages in a trace, in order. *)
Definition unsubscribedTopics (tr : list Event) : list string :=
  omap (fun e => match e with
                 | EvSend (MsgUnsubscribe s) => Some (Topic s)
                 | _ => None
                 end) tr.

(** The topics of the Subscribe messages in a trace, in order. *)
Definition subscribedTopics (tr : list Event) : list string :=
  omap (fun e => match e with
                 | EvSend (MsgSubscribe s) => Some (Topic s)
                 | _ => None
                 end) tr.

(** The Hub handling a list of messages, oldest first. *)
Fixpoint handleList (ms : list ChanMsg) (w : World) : World :=
  match ms with
  | [] => w
  | m :: rest => handleList rest (hubHandle m w)
  end.

(** Two worlds in which the Hub sees the same client and the same table. *)
Definition agree (w w' : World) : Prop :=
  cli w = cli w' /\ subscribers w = subscribers w'.

(** [w] after the messages [ms] were sent without the Hub handling any. *)
Definition afterSends (ms : list ChanMsg) (w : World) : World :=
  mkWorld (cli w) (subscribers w) (chanCap w) (inbox w ++ ms)
          (trace w ++ map EvSend ms) (oracle w).

(** Connection "c1" after its pump has subscribed it to four topics, over
    channels of the given capacity, and the Hub has handled all four
    messages; [sched] is the schedule from here on. *)
Definition fourTopics (capacity : nat) (sched : list nat) : World :=
  setOracle sched
    (hubDrain (SubscribeMultiple ["a"; "b"; "c"; "d"] (newWorld "c1" capacity []))).

(** The messages handed to [Hub.Publish], in order. *)
Definition publishes (tr : list Event) : list PublishMessage :=
  omap (fun e => match e with EvPublish m => Some m | _ => None end) tr.

(** The frames written to the socket, in order: message type and payload. *)
Definition written (tr : list Event) : list (Z * string) :=
  omap (fun e => match e with EvWrite mt payload => Some (mt, payload) | _ => None end) tr.

(** What the Hub will have made of the world once it has handled all that
    is pending. *)
Definition eventual (w : World) : World := handleList (inbox w) w.

(** Only Unsubscribe messages are waiting to be handled by the Hub. *)
Definition onlyUnsubscribes (w : World) : Prop :=
  Forall (fun m => match m with MsgUnsubscribe _ => True | _ => False end) (inbox w).

(** What one frame gives to [Hub.Publish]: the decoded message when the
    envelope decodes with an action other than "subscribe" and the payload
    decodes as a publish message, nothing otherwise. *)
Definition framePublishes (json : Decoders PublishMessage) (payload : string)
    : list PublishMessage :=
  match unmarshalAction json payload with
  | None => []
  | Some action =>
    if decide (action = "subscribe") then []
    else match unmarshalPublish json payload with
         | None => []
         | Some pubMsg => [pubMsg]
         end
  end.

(** The same for the frames read up to the first read error. *)
Fixpoint readsPublish (json : Decoders PublishMessage) (reads : list ReadResult)
    : list PublishMessage :=
  match reads with
  | [] => []
  | ReadErr _ :: _ => []
  | ReadMsg payload :: rest => framePublishes json payload ++ readsPublish json rest
  end.

(** The reads up to and including the first error. *)
Fixpoint untilError (reads : list ReadResult) : list ReadResult :=
  match reads with
  | [] => []
  | ReadErr u :: _ => [ReadErr u]
  | ReadMsg payload :: rest => ReadMsg payload :: untilError rest
  end.

(** The array of [c.Topics] during a range loop that started with length
    [N] on an array with contents [b0], while the Hub only removes topics:
    the slice has not grown or moved, and the cells from [N - 1] on, which
    no removal writes, are as they were. *)
Definition arrayKept (N : nat) (b0 : list string) (w : World) : Prop :=
  let s := Topics (cli w) in
  wfSlice s /\ len s <= N /\ N <= cap s /\
  drop (N - 1) (backing s) = drop (N - 1) b0.

(** The payloads of the text frames written to the socket, in order. *)
Definition textFrames (tr : list Event) : list string :=
  omap (fun e => match e with
                 | EvWrite mt payload =>
                   if decide (mt = TextMessage) then Some payload else None
                 | _ => None
                 end) tr.

(** Neither a call of [Hub.Publish] nor a frame written to the socket. *)
Definition isInternal (e : Event) : Prop :=
  match e with EvLog _ _ | EvSend _ => True | _ => False end.

(** Every [write] of these turns of the [select] succeeds. *)
Definition allWritesOk (steps : list WriteStep) : Prop :=
  Forall (fun st => match st with FromSend ok | FromTicker ok => ok = true end) steps.

(** How many turns of the [select] took the case of the outbound queue. *)
Fixpoint sendTurns (steps : list WriteStep) : nat :=
  match steps with
  | [] => 0
  | FromSend _ :: rest => S (sendTurns rest)
  | FromTicker _ :: rest => sendTurns rest
  end.

(** [w'] differs from [w] at most in the buffer of the outbound queue, the
    transport and the trace, and the trace has no new message to the Hub
    and no new call of [Hub.Publish]. *)
Definition writeSide (w w' : World) : Prop :=
  ID (cli w') = ID (cli w) /\ closed (cli w') = closed (cli w) /\
  Topics (cli w') = Topics (cli w) /\
  chCap (send (cli w')) = chCap (send (cli w)) /\
  chCloses (send (cli w')) = chCloses (send (cli w)) /\
  subscribers w' = subscribers w /\ inbox w' = inbox w /\
  sends (trace w') = sends (trace w) /\ publishes (trace w') = publishes (trace w).

End Notions.

(** ** Examples of decoders and connections *)

(** A decoder given by a table: for each of a few payloads, what the
    three [json.Unmarshal] calls make of it.  A payload that is not listed
    does not decode at all.  Published messages are plain strings here. *)
Definition exampleFrames :
    list (string * (option string * option (list string) * option string)) :=
  [ ("subscribe to nothing", (Some "subscribe", Some [], None));
    ("subscribe to sport", (Some "subscribe", Some ["sport"], None));
    ("subscribe to sport, news, sport",
       (Some "subscribe", Some ["sport"; "news"; "sport"], None));
    ("subscribe, topics malformed", (Some "subscribe", None, None));
    ("publish rain to weather", (Some "publish", None, Some "weather: rain"));
    ("shout rain to weather", (Some "shout", None, Some "weather: rain"));
    ("publish, malformed", (Some "publish", None, None)) ].

Definition lookupFrame (payload : string) :
    option (option string * option (list string) * option string) :=
  (list_to_map exampleFrames : gmap string _) !! payload.

Definition exampleJson : Decoders string :=
  mkDecoders
    (fun payload => match lookupFrame payload with Some (a, _, _) => a | None => None end)
    (fun payload => match lookupFrame payload with Some (_, t, _) => t | None => None end)
    (fun payload => match lookupFrame payload with Some (_, _, m) => m | None => None end).

(** Connection "c1", new, on a Hub with unbuffered channels. *)
Definition c1World : @World string := newWorld "c1" 0 [].

Definition news : Subscription := mkSubscription "news" "c1".

(** Connection "c1" after the Hub has handled one Subscribe message. *)
Definition onceSubscribed : @World string :=
  hubDrain (setInbox [MsgSubscribe news] c1World).

(** Connection "c1" with "news" twice in its topic list, as two calls of
    [AddTopic] leave it. *)
Definition twiceSubscribed : @World string :=
  AddTopic "news" (AddTopic "news" c1World).

(** Connection "c1" when its write pump has left: the transport is
    closed, the guard is unset. *)
Definition afterWritePump : @World string := closeRequest ByWritePump c1World.

(** Connection "c1" subscribed to two topics, over unbuffered channels,
    with a schedule in which the Hub runs at every yield. *)
Definition twoTopics : @World string :=
  setOracle [1; 1; 1]
    (hubDrain (SubscribeMultiple ["a"; "b"] (newWorld "c1" 0 []))).

(** Connection "c1" with three payloads in its outbound queue. *)
Definition threeQueued : @World string :=
  setCli (setSend (mkChan 256 ["m1"; "m2"; "m3"] 0) (cli c1World)) c1World.

(** * Properties *)

(** ** Slices *)

Lemma view_length (s : Slice) : wfSlice s -> length (view s) = len s.
Proof.
  unfold wfSlice, cap, view. intros H. rewrite length_take. lia.
Qed.

Lemma wf_nilSlice : wfSlice nilSlice.
Proof. unfold wfSlice, cap. simpl. lia. Qed.

Lemma wf_append1 (s : Slice) (x : string) : wfSlice s -> wfSlice (append1 s x).
Proof.
  unfold append1, view, wfSlice, cap. intros H.
  case_decide; simpl.
  - rewrite length_insert. lia.
  - rewrite length_app, length_take. simpl. lia.
Qed.

Lemma view_append1 (s : Slice) (x : string) :
  wfSlice s -> view (append1 s x) = view s ++ [x].
Proof.
  unfold append1, view, wfSlice, cap. intros H.
  case_decide as Hlt; simpl.
  - rewrite <- (take_drop (len s) (backing s)) at 1.
    assert (Hl : length (take (len s) (backing s)) = len s)
      by (rewrite length_take; lia).
    rewrite insert_app_r_alt by lia.
    rewrite Hl, Nat.sub_diag.
    destruct (drop (len s) (backing s)) as [|y tl] eqn:Hd.
    + apply (f_equal length) in Hd. rewrite length_drop in Hd. simpl in Hd. lia.
    + simpl. rewrite take_app_ge by lia.
      rewrite Hl. replace (S (len s) - len s) with 1 by lia. reflexivity.
  - rewrite take_ge; [reflexivity|].
    rewrite length_app, length_take. simpl. lia.
Qed.

Lemma wf_spliceOut (s : Slice) (i : nat) : wfSlice s -> wfSlice (spliceOut s i).
Proof.
  unfold spliceOut, view, wfSlice, cap. simpl. intros H.
  rewrite !length_app, length_take, !length_drop, length_take. lia.
Qed.

Lemma cap_spliceOut (s : Slice) (i : nat) :
  wfSlice s -> i < len s -> cap (spliceOut s i) = cap s.
Proof.
  unfold spliceOut, view, wfSlice, cap. simpl. intros H Hi.
  rewrite !length_app, length_take, !length_drop, length_take. lia.
Qed.

Lemma view_spliceOut (s : Slice) (i : nat) :
  wfSlice s -> i < len s -> view (spliceOut s i) = delete i (view s).
Proof.
  unfold spliceOut, view, wfSlice, cap. simpl. intros H Hi.
  rewrite app_assoc.
  assert (Hl : length (take i (backing s) ++ drop (S i) (take (len s) (backing s)))
               = len s - 1).
  { rewrite length_app, length_take, length_drop, length_take. lia. }
  rewrite take_app_le by lia.
  rewrite take_ge by lia.
  rewrite delete_take_drop. f_equal.
  rewrite take_take. f_equal. lia.
Qed.

(** [rangeFind] returns [-1] exactly when the topic is absent, and
    otherwise the position of its first occurrence. *)
Lemma rangeFind_spec (topic : string) (ts : list string) (idx : Z) :
  (0 <= idx)%Z ->
  ((topic ∉ ts) /\ rangeFind topic ts idx = (-1)%Z) \/
  (exists i, rangeFind topic ts idx = (idx + Z.of_nat i)%Z /\
             ts !! i = Some topic /\ (topic ∉ take i ts)).
Proof.
  revert idx. induction ts as [|t ts IH]; intros idx Hidx; simpl.
  - left. split; [apply not_elem_of_nil | reflexivity].
  - case_decide as Heq.
    + right. exists 0. subst. simpl. split; [lia|]. split; [reflexivity|].
      apply not_elem_of_nil.
    + destruct (IH (idx + 1)%Z ltac:(lia)) as [[Hn Hr] | (i & Hr & Hi & Hn)].
      * left. split; [|exact Hr]. rewrite not_elem_of_cons. split; congruence.
      * right. exists (S i). split; [lia|]. split; [exact Hi|].
        simpl. rewrite not_elem_of_cons. split; congruence.
Qed.

Lemma removeFirst_delete (topic : string) (ts : list string) (i : nat) :
  ts !! i = Some topic -> topic ∉ take i ts -> delete i ts = removeFirst topic ts.
Proof.
  revert i. induction ts as [|t ts IH]; intros i Hi Hn; [done|].
  destruct i as [|i]; simpl in *.
  - injection Hi as ->. by rewrite decide_True.
  - apply not_elem_of_cons in Hn as [Hne Hn].
    rewrite decide_False by congruence. f_equal. by apply IH.
Qed.

Lemma removeFirst_absent (topic : string) (ts : list string) :
  topic ∉ ts -> removeFirst topic ts = ts.
Proof.
  induction ts as [|t ts IH]; intros Hn; [done|]. simpl.
  apply not_elem_of_cons in Hn as [Hne Hn].
  rewrite decide_False by congruence. f_equal. by apply IH.
Qed.

Lemma elem_of_removeFirst (x topic : string) (ts : list string) :
  x ∈ removeFirst topic ts -> x ∈ ts.
Proof.
  induction ts as [|t ts IH]; simpl; [done|].
  case_decide; intros Hx.
  - apply elem_of_cons. by right.
  - apply elem_of_cons in Hx as [->|Hx]; apply elem_of_cons; [by left|].
    right. by apply IH.
Qed.

Lemma NoDup_removeFirst (topic : string) (ts : list string) :
  NoDup ts -> NoDup (removeFirst topic ts).
Proof.
  induction 1 as [|t ts Hn Hnd IH]; simpl; [constructor|].
  case_decide; [done|]. constructor; [|done].
  intros Hx. apply Hn. by eapply elem_of_removeFirst.
Qed.

Lemma occurrences_removeFirst (topic : string) (ts : list string) :
  occurrences topic (removeFirst topic ts) = occurrences topic ts - 1.
Proof.
  unfold occurrences. induction ts as [|t ts IH]; simpl; [done|].
  case_decide as Heq.
  - rewrite filter_cons_True by done. simpl. lia.
  - rewrite !filter_cons_False by done. exact IH.
Qed.

Lemma occurrences_zero (x : string) (l : list string) :
  occurrences x l = 0 <-> x ∉ l.
Proof.
  unfold occurrences. induction l as [|y l IH]; simpl.
  - split; [intros _; apply not_elem_of_nil | done].
  - destruct (decide (y = x)) as [->|Hne].
    + rewrite filter_cons_True by done. simpl. split; [lia|].
      intros Hn. exfalso. apply Hn. apply elem_of_cons. by left.
    + rewrite filter_cons_False by done. rewrite IH, not_elem_of_cons.
      split; [intros ?; split; congruence | tauto].
Qed.

(** ** The topic list under [AddTopic] and [RemoveTopic] *)

Section TopicList.
Context {PublishMessage : Type}.
Local Abbreviation World := (@World PublishMessage).

Lemma topicsOf_AddTopic (topic : string) (w : World) :
  wfWorld w -> topicsOf (AddTopic topic w) = topicsOf w ++ [topic].
Proof. intros H. unfold topicsOf, AddTopic. simpl. by apply view_append1. Qed.

Lemma wf_AddTopic (topic : string) (w : World) :
  wfWorld w -> wfWorld (AddTopic topic w).
Proof. intros H. unfold wfWorld, AddTopic. simpl. by apply wf_append1. Qed.

Lemma topicsOf_RemoveTopic (topic : string) (w : World) :
  wfWorld w -> topicsOf (RemoveTopic topic w) = removeFirst topic (topicsOf w).
Proof.
  intros H. unfold topicsOf, RemoveTopic.
  destruct (rangeFind_spec topic (view (Topics (cli w))) 0 ltac:(lia))
    as [[Hn Hr] | (i & Hr & Hi & Hn)]; rewrite Hr.
  - rewrite decide_False by (intros Hc; by apply Hc).
    by rewrite removeFirst_absent.
  - rewrite decide_True by lia. simpl.
    replace (Z.to_nat (0 + Z.of_nat i)) with i by lia.
    rewrite view_spliceOut; [by apply removeFirst_delete | exact H |].
    apply lookup_lt_Some in Hi. by rewrite view_length in Hi.
Qed.

Lemma wf_RemoveTopic (topic : string) (w : World) :
  wfWorld w -> wfWorld (RemoveTopic topic w).
Proof.
  intros H. unfold wfWorld, RemoveTopic. case_decide; [|exact H].
  simpl. by apply wf_spliceOut.
Qed.

Lemma topicsOf_close (w : World) : topicsOf (close w) = topicsOf w.
Proof.
  unfold topicsOf, close. destruct (closed (cli w)); [done|].
  simpl. by destruct (wsClosed (ws (cli w)) || wsCloseFails (ws (cli w))).
Qed.

Lemma wf_close (w : World) : wfWorld w -> wfWorld (close w).
Proof.
  unfold wfWorld, close. destruct (closed (cli w)); [done|].
  simpl. by destruct (wsClosed (ws (cli w)) || wsCloseFails (ws (cli w))).
Qed.

Lemma wf_hubHandle (m : ChanMsg) (w : World) : wfWorld w -> wfWorld (hubHandle m w).
Proof.
  intros H. destruct m as [s|s|id]; simpl.
  - unfold doSubscribe. case_decide; [exact H | by apply wf_AddTopic].
  - by apply wf_RemoveTopic.
  - apply wf_close. unfold wfWorld. simpl. apply wf_nilSlice.
Qed.

Lemma topicsOf_doSubscribe (s : Subscription) (w : World) :
  wfWorld w -> topicsOf (doSubscribe s w) = addTopicOnce (topicsOf w) (Topic s).
Proof.
  intros H. unfold doSubscribe, addTopicOnce.
  case_decide; [done | by rewrite topicsOf_AddTopic].
Qed.

Lemma topicsOf_doUnsubscribe (s : Subscription) (w : World) :
  wfWorld w -> topicsOf (doUnsubscribe s w) = removeFirst (Topic s) (topicsOf w).
Proof. intros H. unfold doUnsubscribe. by rewrite topicsOf_RemoveTopic. Qed.

Lemma subscribers_RemoveTopic (topic : string) (w : World) :
  subscribers (RemoveTopic topic w) = subscribers w.
Proof. unfold RemoveTopic. by case_decide. Qed.

Lemma not_subscriber_doUnsubscribe (s : Subscription) (w : World) :
  SubClient s ∉ subscribersOf (Topic s) (doUnsubscribe s w).
Proof.
  unfold subscribersOf, doUnsubscribe. rewrite subscribers_RemoveTopic. simpl.
  case_decide.
  - rewrite lookup_delete_eq. simpl. apply not_elem_of_empty.
  - rewrite lookup_insert_eq. simpl.
    intros [_ Hc]%elem_of_difference. apply Hc. by apply elem_of_singleton.
Qed.

Lemma subscriber_doSubscribe (s : Subscription) (w : World) :
  SubClient s ∈ subscribersOf (Topic s) (doSubscribe s w).
Proof.
  unfold subscribersOf, doSubscribe.
  case_decide; unfold AddTopic; simpl; rewrite lookup_insert_eq; simpl; set_solver.
Qed.

End TopicList.

(** ** The tunable constants *)

(** C9. The write deadline is 10 seconds and the pong wait 30 seconds; the
    ping period is (pong wait * 9) / 10, which is 27 seconds and strictly
    less than the pong wait; the largest inbound frame is 512 bytes; the
    outbound queue of a connection made by [NewClient] is an open, empty
    channel of capacity 256. *)
Theorem tunable_constants :
  Duration.Second = 1000000000%Z /\
  writeWait = (10 * Duration.Second)%Z /\
  pongWait = (30 * Duration.Second)%Z /\
  pingPeriod = (pongWait * 9 / 10)%Z /\
  pingPeriod = (27 * Duration.Second)%Z /\
  (pingPeriod < pongWait)%Z /\
  maxMessageSize = 512%Z /\
  forall (conn : Conn) (id : string),
    send (NewClient conn id) = mkChan 256 [] 0 /\
    chCap (send (NewClient conn id)) = 256.
Proof.
  repeat split; try reflexivity.
Qed.

(** ** What the Hub's handlers and the pump's sends leave alone *)

(** Closes [evolves Q w w'] when [w'] differs from [w] outside the trace,
    the identity and the capacity. *)
Ltac same_trace :=
  repeat split; exists []; split; [simpl; by rewrite app_nil_r | constructor].

Section Frames.
Context {PublishMessage : Type}.
Local Abbreviation World := (@World PublishMessage).
Local Abbreviation Event := (@Event PublishMessage).

Lemma evolves_refl (Q : Event -> Prop) (w : World) : evolves Q w w.
Proof. same_trace. Qed.

Lemma evolves_trans (Q : Event -> Prop) (w1 w2 w3 : World) :
  evolves Q w1 w2 -> evolves Q w2 w3 -> evolves Q w1 w3.
Proof.
  intros (Hi1 & Hc1 & tr1 & Ht1 & Hq1) (Hi2 & Hc2 & tr2 & Ht2 & Hq2).
  split; [congruence|]. split; [congruence|].
  exists (tr1 ++ tr2). split.
  - rewrite Ht2, Ht1. by rewrite app_assoc.
  - by apply Forall_app.
Qed.

Lemma evolves_weaken (Q Q' : Event -> Prop) (w w' : World) :
  (forall e, Q e -> Q' e) -> evolves Q w w' -> evolves Q' w w'.
Proof.
  intros HQ (Hi & Hc & tr & Ht & Hq). repeat split; try done.
  exists tr. split; [done|]. eapply Forall_impl; eauto.
Qed.

Lemma evolves_emit (Q : Event -> Prop) (e : Event) (w : World) :
  Q e -> evolves Q w (emit e w).
Proof.
  intros He. repeat split. exists [e]. split; [done|]. by repeat constructor.
Qed.

Lemma evolves_setInbox (Q : Event -> Prop) (q : list ChanMsg) (w : World) :
  evolves Q w (setInbox q w).
Proof. same_trace. Qed.

Lemma evolves_setOracle (Q : Event -> Prop) (o : list nat) (w : World) :
  evolves Q w (setOracle o w).
Proof. same_trace. Qed.

Lemma evolves_AddTopic (topic : string) (w : World) : evolves isLog w (AddTopic topic w).
Proof. same_trace. Qed.

Lemma evolves_RemoveTopic (topic : string) (w : World) :
  evolves isLog w (RemoveTopic topic w).
Proof.
  unfold RemoveTopic. case_decide; [|apply evolves_refl].
  repeat split. eexists [_]. split; [reflexivity|]. by repeat constructor.
Qed.

Lemma evolves_close (w : World) : evolves isLog w (close w).
Proof.
  unfold close. destruct (closed (cli w)); [apply evolves_refl|].
  simpl. destruct (wsClosed (ws (cli w)) || wsCloseFails (ws (cli w)));
    repeat split; simpl.
  - eexists [_]. split; [reflexivity|]. by repeat constructor.
  - eexists [_; _]. split; [by rewrite <- app_assoc|]. by repeat constructor.
Qed.

Lemma evolves_hubHandle (m : ChanMsg) (w : World) : evolves isLog w (hubHandle m w).
Proof.
  destruct m as [s|s|id]; simpl.
  - unfold doSubscribe. case_decide; same_trace.
  - unfold doUnsubscribe.
    eapply evolves_trans; [|apply evolves_RemoveTopic]. same_trace.
  - unfold doUnregister.
    eapply evolves_trans; [|apply evolves_close]. same_trace.
Qed.

Lemma evolves_hubSteps (k : nat) (pending : list ChanMsg) (w : World) :
  evolves isLog w (hubSteps k pending w).
Proof.
  revert k w. induction pending as [|m rest IH]; intros k w; simpl.
  - same_trace.
  - destruct k as [|k]; [same_trace|].
    eapply evolves_trans; [|apply IH].
    eapply evolves_trans; [|apply evolves_hubHandle]. same_trace.
Qed.

Lemma evolves_hubRun (k : nat) (w : World) : evolves isLog w (hubRun k w).
Proof. apply evolves_hubSteps. Qed.

Lemma evolves_yield (w : World) : evolves isLog w (yield w).
Proof.
  unfold yield. destruct (oracle w) as [|k o]; [apply evolves_refl|].
  eapply evolves_trans; [|apply evolves_hubRun]. same_trace.
Qed.

(** A send adds the sent message to the trace, after the log lines of
    whatever the Hub had to finish first. *)
Lemma evolves_chanSend (Q : Event -> Prop) (m : ChanMsg) (w : World) :
  (forall e, isLog e -> Q e) -> Q (EvSend m) -> evolves Q w (chanSend m w).
Proof.
  intros Hlog Hm. unfold chanSend.
  eapply evolves_trans.
  { eapply evolves_weaken; [exact Hlog | apply evolves_hubRun]. }
  eapply evolves_trans; [apply evolves_setInbox | by apply evolves_emit].
Qed.

End Frames.

(** ** The connection's transport, guard and queue while nothing closes it *)

Section Steady.
Context {PublishMessage : Type}.
Local Abbreviation World := (@World PublishMessage).
Local Abbreviation Event := (@Event PublishMessage).

Lemma sameConn_refl (w : World) : sameConn w w.
Proof. by repeat split. Qed.

Lemma sameConn_trans (w1 w2 w3 : World) :
  sameConn w1 w2 -> sameConn w2 w3 -> sameConn w1 w3.
Proof. intros (?&?&?) (?&?&?). repeat split; congruence. Qed.

Lemma sameConn_RemoveTopic (topic : string) (w : World) :
  sameConn w (RemoveTopic topic w).
Proof. unfold RemoveTopic. case_decide; by repeat split. Qed.

Lemma inbox_RemoveTopic (topic : string) (w : World) :
  inbox (RemoveTopic topic w) = inbox w.
Proof. unfold RemoveTopic. by case_decide. Qed.

Lemma sameConn_hubHandle (m : ChanMsg) (w : World) :
  notUnregister m -> sameConn w (hubHandle m w) /\ inbox (hubHandle m w) = inbox w.
Proof.
  destruct m as [s|s|id]; simpl; intros Hm.
  - unfold doSubscribe. case_decide; by repeat split.
  - unfold doUnsubscribe. split.
    + eapply sameConn_trans; [|apply sameConn_RemoveTopic]. by repeat split.
    + by rewrite inbox_RemoveTopic.
  - destruct Hm.
Qed.

Lemma steady_hubSteps (k : nat) (pending : list ChanMsg) (w : World) :
  Forall notUnregister pending ->
  calm (hubSteps k pending w) /\ sameConn w (hubSteps k pending w).
Proof.
  revert k w. induction pending as [|m rest IH]; intros k w Hp; simpl.
  - split; [constructor | by repeat split].
  - destruct k as [|k]; [split; [exact Hp | by repeat split]|].
    apply Forall_cons in Hp as [Hm Hrest].
    destruct (IH k (hubHandle m (setInbox rest w)) Hrest) as [Hc Hs].
    split; [exact Hc|].
    eapply sameConn_trans; [|exact Hs].
    destruct (sameConn_hubHandle m (setInbox rest w) Hm) as [Hs' _].
    eapply sameConn_trans; [|exact Hs']. by repeat split.
Qed.

Lemma steady_hubRun (k : nat) (w : World) :
  calm w -> calm (hubRun k w) /\ sameConn w (hubRun k w).
Proof. intros H. by apply steady_hubSteps. Qed.

Lemma steady_yield (w : World) : calm w -> calm (yield w) /\ sameConn w (yield w).
Proof.
  intros H. unfold yield. destruct (oracle w) as [|k o].
  - split; [exact H | apply sameConn_refl].
  - destruct (steady_hubRun k (setOracle o w) H) as [Hc Hs]. split; [exact Hc|].
    eapply sameConn_trans; [|exact Hs]. by repeat split.
Qed.

Lemma steady_chanSend (m : ChanMsg) (w : World) :
  notUnregister m -> calm w -> calm (chanSend m w) /\ sameConn w (chanSend m w).
Proof.
  intros Hm H. unfold chanSend.
  destruct (steady_hubRun (length (inbox w) - chanCap w) w H) as [Hc Hs].
  split.
  - unfold calm. simpl. apply Forall_app. split; [exact Hc | by repeat constructor].
  - eapply sameConn_trans; [exact Hs|]. by repeat split.
Qed.

Lemma steady_rangeUnsubscribe (n i : nat) (w : World) :
  calm w -> calm (rangeUnsubscribe n i w) /\ sameConn w (rangeUnsubscribe n i w).
Proof.
  revert i w. induction n as [|n IH]; intros i w H; simpl.
  - split; [exact H | apply sameConn_refl].
  - destruct (steady_yield w H) as [Hc1 Hs1].
    set (topic := nth i (backing (Topics (cli (yield w)))) "").
    destruct (steady_chanSend
                (MsgUnsubscribe (mkSubscription topic (ID (cli (yield w)))))
                (yield w) I Hc1) as [Hc2 Hs2].
    destruct (IH (S i) _ Hc2) as [Hc3 Hs3].
    split; [exact Hc3|].
    eapply sameConn_trans; [exact Hs1|]. eapply sameConn_trans; [exact Hs2|].
    exact Hs3.
Qed.

Lemma steady_SubscribeMultiple (topics : list string) (w : World) :
  calm w -> calm (SubscribeMultiple topics w) /\ sameConn w (SubscribeMultiple topics w).
Proof.
  revert w. induction topics as [|t rest IH]; intros w H; simpl.
  - split; [exact H | apply sameConn_refl].
  - destruct (steady_chanSend (MsgSubscribe (mkSubscription t (ID (cli w)))) w I H)
      as [Hc1 Hs1].
    destruct (IH _ Hc1) as [Hc2 Hs2]. split; [exact Hc2|].
    eapply sameConn_trans; [exact Hs1 | exact Hs2].
Qed.

(** ** The events of the pump's operations *)

(** [UnsubscribeAll] logs (through the Hub) and sends Unsubscribe
    messages, nothing else. *)
Lemma evolves_rangeUnsubscribe (n i : nat) (w : World) :
  evolves (fun e => isLog e \/ isUnsubscribeSend e) w (rangeUnsubscribe n i w).
Proof.
  revert i w. induction n as [|n IH]; intros i w; simpl.
  - apply evolves_refl.
  - eapply evolves_trans; [|apply IH].
    eapply evolves_trans.
    + eapply evolves_weaken; [|apply evolves_yield]. intros e He. by left.
    + apply evolves_chanSend; [intros e He; by left | by right].
Qed.

Lemma evolves_SubscribeMultiple (topics : list string) (w : World) :
  evolves (fun e => isLog e \/ isSubscribeSend e) w (SubscribeMultiple topics w).
Proof.
  revert w. induction topics as [|t rest IH]; intros w; simpl.
  - apply evolves_refl.
  - eapply evolves_trans; [|apply IH].
    apply evolves_chanSend; [intros e He; by left | by right].
Qed.

End Steady.

(** ** The inbound pump *)

Section InboundPump.
Context {PublishMessage : Type}.
Variable json : Decoders PublishMessage.
Local Abbreviation World := (@World PublishMessage).
Local Abbreviation Event := (@Event PublishMessage).

Lemma inbox_hubSteps_all (pending : list ChanMsg) (k : nat) (w : World) :
  length pending <= k -> inbox (hubSteps k pending w) = [].
Proof.
  revert k w. induction pending as [|m rest IH]; intros k w Hk; simpl; [done|].
  destruct k as [|k]; simpl in Hk; [lia|]. apply IH. lia.
Qed.

Lemma inbox_hubDrain (w : World) : inbox (hubDrain w) = [].
Proof. unfold hubDrain, hubRun. by apply inbox_hubSteps_all. Qed.

Lemma calm_hubDrain (w : World) : calm (hubDrain w).
Proof. unfold calm. rewrite inbox_hubDrain. constructor. Qed.

Lemma evolves_UnsubscribeAll (w : World) :
  evolves (fun e => isLog e \/ isUnsubscribeSend e) w (UnsubscribeAll w).
Proof. apply evolves_rangeUnsubscribe. Qed.

(** No frame makes the pump send Unregister. *)
Lemma evolves_handleMessage (payload : string) (w : World) :
  evolves (fun e => ~ isUnregisterSend e) w (handleMessage json payload w).
Proof.
  unfold handleMessage.
  destruct (unmarshalAction json payload) as [action|];
    [|apply evolves_emit; intros He; exact He].
  case_decide.
  - assert (H1 : evolves (fun e : Event => ~ isUnregisterSend e)
                   w (UnsubscribeAll (emit (EvLog
                     "[DEBUG] Client %s is subscribing. Removing all old subscriptions."
                     [ID (cli w)]) w))).
    { match goal with
      | |- evolves _ _ (UnsubscribeAll (emit ?e _)) =>
          eapply evolves_trans; [apply (evolves_emit _ e); intros He; exact He|]
      end.
      eapply evolves_weaken; [|apply evolves_UnsubscribeAll].
      intros [| [] | |] [He|He]; simpl in *; tauto. }
    destruct (unmarshalSubscriptions json payload) as [topics|].
    + eapply evolves_trans; [exact H1|].
      eapply evolves_weaken; [|apply evolves_SubscribeMultiple].
      intros [| [] | |] [He|He]; simpl in *; tauto.
    + eapply evolves_trans; [exact H1|]. apply evolves_emit. intros He. exact He.
  - destruct (unmarshalPublish json payload) as [m|];
      apply evolves_emit; intros He; exact He.
Qed.

Lemma evolves_hubDrain (w : World) : evolves (fun e : Event => ~ isUnregisterSend e) w (hubDrain w).
Proof.
  eapply evolves_weaken; [|apply evolves_hubRun]. intros [| [] | |]; simpl; tauto.
Qed.

Lemma evolves_readLoop (reads : list ReadResult) (w : World) :
  evolves (fun e => ~ isUnregisterSend e) w (fst (readLoop json reads w)).
Proof.
  revert w. induction reads as [|r rest IH]; intros w; simpl.
  - apply evolves_refl.
  - destruct r as [payload|u]; simpl.
    + eapply evolves_trans; [|apply IH].
      eapply evolves_trans; [apply evolves_hubDrain | apply evolves_handleMessage].
    + apply evolves_emit. destruct u; intros He; exact He.
Qed.

(** The loop is left exactly when [ReadMessage] returns an error. *)
Lemma readLoop_exits (reads : list ReadResult) (w : World) :
  snd (readLoop json reads w) = true <-> exists u, ReadErr u ∈ reads.
Proof.
  revert w. induction reads as [|r rest IH]; intros w; simpl.
  - split; [done|]. intros [u Hu]. by apply elem_of_nil in Hu.
  - destruct r as [payload|u]; simpl.
    + rewrite IH. split; intros [u Hu]; exists u.
      * apply elem_of_cons. by right.
      * apply elem_of_cons in Hu as [Hu|Hu]; [done | exact Hu].
    + split; [|done]. intros _. exists u. apply elem_of_cons. by left.
Qed.

Lemma trace_chanSend (m : ChanMsg) (w : World) :
  trace (chanSend m w) = trace (hubRun (length (inbox w) - chanCap w) w) ++ [EvSend m].
Proof. reflexivity. Qed.

(** C7. Whenever the loop of the inbound pump is left, which happens
    exactly when a read fails (for whatever reason), the pump sends one
    Unregister for its own connection to the Hub, as its last action; no
    other Unregister is sent by the pump, neither before nor while it is
    still reading. *)
Theorem listenRead_unregisters_once (reads : list ReadResult) (w : World) :
  let '(w', exited) := listenRead json reads w in
  (exited = true <-> exists u, ReadErr u ∈ reads) /\
  exists tr, Forall (fun e => ~ isUnregisterSend e) tr /\
    trace w' = trace w ++ tr ++
      (if exited then [EvSend (MsgUnregister (ID (cli w)))] else []).
Proof.
  unfold listenRead.
  set (w1 := setCli _ w).
  set (w2 := if wsClosed (ws (cli w1)) then _ else w1).
  assert (H2 : evolves (fun e : Event => ~ isUnregisterSend e) w w2).
  { subst w2. destruct (wsClosed (ws (cli w1))).
    - eapply (evolves_trans _ _ w1); [subst w1; same_trace|].
      apply evolves_emit. intros He. exact He.
    - subst w1. same_trace. }
  pose proof (evolves_readLoop reads w2) as H3.
  pose proof (readLoop_exits reads w2) as Hex.
  destruct (readLoop json reads w2) as [w3 exited]. simpl in H3, Hex.
  pose proof (evolves_trans _ _ _ _ H2 H3) as (Hid & _ & tr & Htr & Hq).
  destruct exited; (split; [exact Hex|]).
  - unfold listenReadDeferred. rewrite trace_chanSend.
    set (w4 := emit _ w3).
    destruct (evolves_hubRun (length (inbox w4) - chanCap w4) w4)
      as (_ & _ & tr' & Htr' & Hq').
    exists (tr ++ [EvLog "[DEBUG] Calling unregister from listenRead" []] ++ tr').
    split.
    + apply Forall_app. split; [exact Hq|]. apply Forall_app. split.
      * repeat constructor. intros He. exact He.
      * eapply Forall_impl; [exact Hq'|]. intros [| [] | |]; simpl; tauto.
    + rewrite Htr'. subst w4. simpl. rewrite Htr, Hid.
      by rewrite <- !app_assoc.
  - exists tr. split; [exact Hq|]. by rewrite app_nil_r.
Qed.

(** C6. A frame whose envelope decodes with an action other than
    "subscribe" (any other string, known or not) and whose payload decodes
    as a publish message makes the pump call Publish once with that
    message: this is the only event of the frame, so nothing is sent on
    the subscribe and unsubscribe channels, and the loop goes on with the
    next read. *)
Theorem default_action_publishes_once
    (payload action : string) (pubMsg : PublishMessage)
    (rest : list ReadResult) (w : World) :
  unmarshalAction json payload = Some action ->
  action ≠ "subscribe" ->
  unmarshalPublish json payload = Some pubMsg ->
  handleMessage json payload w = emit (EvPublish pubMsg) w /\
  trace (handleMessage json payload w) = trace w ++ [EvPublish pubMsg] /\
  inbox (handleMessage json payload w) = inbox w /\
  readLoop json (ReadMsg payload :: rest) w =
    readLoop json rest (emit (EvPublish pubMsg) (hubDrain w)).
Proof.
  intros Ha Hne Hp.
  assert (H : forall w0 : World, handleMessage json payload w0 = emit (EvPublish pubMsg) w0).
  { intros w0. unfold handleMessage. rewrite Ha, decide_False by exact Hne.
    by rewrite Hp. }
  split; [apply H|]. rewrite H. split; [reflexivity|]. split; [reflexivity|].
  simpl. by rewrite H.
Qed.

(** C5. A frame whose payload fails to decode, at any of the three decode
    steps, is logged and dropped: the last event of the frame is the error
    line, before it the frame caused at most log lines and Unsubscribe
    sends (none at all unless the action was "subscribe"), so neither a
    Subscribe nor a Publish is issued for it; the transport, the close
    guard and the outbound queue are untouched, and the loop goes on with
    the next read from the state the frame left. *)
Theorem decode_error_not_fatal
    (payload : string) (rest : list ReadResult) (w : World) :
  decodeFails json payload ->
  let w0 := hubDrain w in
  let w' := handleMessage json payload w0 in
  readLoop json (ReadMsg payload :: rest) w = readLoop json rest w' /\
  (exists tr, trace w' = trace w0 ++ tr ++ [invalidData] /\
     Forall (fun e => isLog e \/ isUnsubscribeSend e) tr /\
     (unmarshalAction json payload ≠ Some "subscribe" -> tr = [])) /\
  sameConn w0 w'.
Proof.
  intros Hfail w0 w'. split; [reflexivity|].
  subst w'. unfold handleMessage.
  destruct Hfail as [Ha | [[Ha Hs] | (action & Ha & Hne & Hp)]]; rewrite Ha.
  - split; [|by repeat split].
    exists []. split; [reflexivity|]. split; [constructor | done].
  - rewrite decide_True by reflexivity. rewrite Hs.
    set (w1 := emit _ w0).
    assert (Hc : calm w1) by (subst w1 w0; apply calm_hubDrain).
    destruct (steady_rangeUnsubscribe (len (Topics (cli w1))) 0 w1 Hc) as [_ Hsame].
    destruct (evolves_UnsubscribeAll w1) as (_ & _ & tr & Htr & Hq).
    split.
    + exists ([EvLog "[DEBUG] Client %s is subscribing. Removing all old subscriptions."
                 [ID (cli w0)]] ++ tr).
      split; [|split].
      * simpl. rewrite Htr. subst w1. simpl. by rewrite <- !app_assoc.
      * apply Forall_app. split; [|exact Hq]. repeat constructor.
      * intros Hc'. by destruct Hc'.
    + eapply sameConn_trans; [|eapply sameConn_trans; [exact Hsame|]];
        by repeat split.
  - rewrite decide_False by exact Hne. rewrite Hp.
    split; [|by repeat split].
    exists []. split; [reflexivity|]. split; [constructor | done].
Qed.

End InboundPump.

(** ** Subscribe and Unsubscribe as the Hub handles them *)

Section HubOperations.
Context {PublishMessage : Type}.
Local Abbreviation World := (@World PublishMessage).

(** C2, amended. Handling Unsubscribe(T, C) removes C from the subscribers
    of T and cuts the first occurrence of T out of C's topic list, so T
    occurs once less than before; T is gone from the list when it occurred
    at most once. *)
Theorem unsubscribe_removes_first_occurrence (s : Subscription) (w : World) :
  wfWorld w ->
  let w' := hubHandle (MsgUnsubscribe s) w in
  (SubClient s ∉ subscribersOf (Topic s) w') /\
  topicsOf w' = removeFirst (Topic s) (topicsOf w) /\
  occurrences (Topic s) (topicsOf w') = occurrences (Topic s) (topicsOf w) - 1 /\
  (occurrences (Topic s) (topicsOf w) <= 1 -> Topic s ∉ topicsOf w').
Proof.
  intros Hwf w'. subst w'. simpl.
  pose proof (topicsOf_doUnsubscribe s w Hwf) as Ht.
  split; [apply not_subscriber_doUnsubscribe|].
  split; [exact Ht|].
  rewrite Ht, occurrences_removeFirst. split; [reflexivity|].
  intros Hle. apply occurrences_zero. rewrite occurrences_removeFirst. lia.
Qed.

Lemma setInbox_id (w : World) : setInbox (inbox w) w = w.
Proof. by destruct w. Qed.

Lemma NoDup_addTopicOnce (l : list string) (t : string) :
  NoDup l -> NoDup (addTopicOnce l t).
Proof.
  intros Hnd. unfold addTopicOnce. case_decide as Hin; [exact Hnd|].
  apply NoDup_app. split; [exact Hnd|]. split; [|apply NoDup_singleton].
  intros x Hx Hx'. apply list_elem_of_singleton in Hx'. by subst x.
Qed.

Lemma NoDup_hubHandle (m : ChanMsg) (w : World) :
  wfWorld w -> NoDup (topicsOf w) -> NoDup (topicsOf (hubHandle m w)).
Proof.
  intros Hwf Hnd. destruct m as [s|s|id]; simpl.
  - rewrite topicsOf_doSubscribe by exact Hwf. by apply NoDup_addTopicOnce.
  - rewrite topicsOf_doUnsubscribe by exact Hwf. by apply NoDup_removeFirst.
  - unfold doUnregister. rewrite topicsOf_close. constructor.
Qed.

(** C3. Handling Subscribe(T, C) appends T to C's topic list only if T is
    not in it: the list afterwards is the list before when T was present,
    and the list before followed by T otherwise.  Hence a topic list
    without duplicates (the empty list of a new connection in particular)
    has none after any sequence of Subscribe, Unsubscribe and Unregister
    messages. *)
Theorem subscribe_keeps_topics_distinct (ops : list ChanMsg) (w : World) :
  wfWorld w ->
  NoDup (topicsOf w) ->
  (forall s,
     topicsOf (hubHandle (MsgSubscribe s) w) =
       if decide (Topic s ∈ topicsOf w) then topicsOf w
       else topicsOf w ++ [Topic s]) /\
  NoDup (topicsOf (hubDrain (setInbox ops w))).
Proof.
  intros Hwf Hnd. split; [intros s; by apply topicsOf_doSubscribe|].
  unfold hubDrain, hubRun. simpl.
  assert (Hgen : forall (k : nat) (w1 : World) (q : list ChanMsg),
             wfWorld w1 -> NoDup (topicsOf w1) ->
             length ops <= k -> NoDup (topicsOf (hubSteps k ops (setInbox q w1)))).
  2:{ apply (Hgen (length ops) w ops); auto. }
  clear Hwf Hnd. induction ops as [|m rest IH]; intros k w1 q Hwf Hnd Hk.
  - exact Hnd.
  - destruct k as [|k]; simpl in Hk; [lia|]. simpl.
    change (setInbox rest (setInbox q w1)) with (setInbox rest w1).
    rewrite <- (setInbox_id (hubHandle m (setInbox rest w1))).
    apply IH; [| |lia].
    + apply wf_hubHandle. exact Hwf.
    + apply NoDup_hubHandle; [exact Hwf | exact Hnd].
Qed.

End HubOperations.

(** ** Closing a connection *)

Section Closing.
Context {PublishMessage : Type}.
Local Abbreviation World := (@World PublishMessage).

Lemma close_closed (w : World) : closed (cli w) = true -> close w = w.
Proof. intros H. unfold close. by rewrite H. Qed.

Lemma closed_close (w : World) : closed (cli (close w)) = true.
Proof.
  unfold close. destruct (closed (cli w)) eqn:Hc; [exact Hc|].
  simpl. by destruct (wsClosed (ws (cli w)) || wsCloseFails (ws (cli w))).
Qed.

(** How [close] changes the counters. *)
Lemma close_counts (w : World) :
  let fresh := negb (closed (cli w)) in
  wsCloseCalls (ws (cli (close w))) =
    wsCloseCalls (ws (cli w)) + (if fresh then 1 else 0) /\
  chCloses (send (cli (close w))) =
    chCloses (send (cli w)) +
    (if fresh && negb (snd (wsClose (ws (cli w)))) then 1 else 0).
Proof.
  unfold close. destruct (closed (cli w)); simpl; [lia|].
  destruct (wsClosed (ws (cli w)) || wsCloseFails (ws (cli w))); simpl; lia.
Qed.

(** A request of the read pump or of the Hub on a connection whose guard
    is set changes neither transport, guard nor queue. *)
Lemma guarded_request_noop (r : CloseRequest) (w : World) :
  closed (cli w) = true -> r ≠ ByWritePump -> sameConn w (closeRequest r w).
Proof.
  intros Hc Hr. destruct r; simpl; [|done|].
  - unfold doUnregister. rewrite close_closed by exact Hc. by repeat split.
  - rewrite close_closed by exact Hc. by repeat split.
Qed.

Lemma guardInv_closeRequest (base exits : nat) (r : CloseRequest) (w : World) :
  guardInv base exits w ->
  guardInv base (exits + writePumpExits [r]) (closeRequest r w).
Proof.
  intros [Hq Hw]. unfold guardInv.
  assert (Hclose : forall w0 : World, guardInv base exits w0 ->
            guardInv base (exits + 0) (close w0)).
  { intros w0 [Hq0 Hw0]. unfold guardInv.
    destruct (close_counts w0) as [H1 H2]. rewrite H1, H2, closed_close.
    destruct (closed (cli w0)); simpl in *; [lia|].
    destruct (wsClosed (ws (cli w0)) || wsCloseFails (ws (cli w0))); simpl; lia. }
  destruct r; simpl.
  - unfold doUnregister. apply Hclose. split; simpl; [exact Hq | exact Hw].
  - unfold writePumpExits. simpl. destruct (closed (cli w)); simpl in *; lia.
  - apply Hclose. by split.
Qed.

Lemma guardInv_closeRequests (base exits : nat) (rs : list CloseRequest) (w : World) :
  guardInv base exits w ->
  guardInv base (exits + writePumpExits rs) (closeRequests rs w).
Proof.
  revert exits w. induction rs as [|r rest IH]; intros exits w H; simpl.
  - unfold writePumpExits. simpl. by rewrite Nat.add_0_r.
  - apply guardInv_closeRequest with (r := r) in H. apply IH in H.
    replace (exits + writePumpExits (r :: rest))
      with (exits + writePumpExits [r] + writePumpExits rest); [exact H|].
    change (r :: rest) with ([r] ++ rest).
    unfold writePumpExits. rewrite filter_app, length_app. lia.
Qed.

(** C4, amended. For a connection nobody has closed yet and any sequence
    of close requests: [close(c.send)] runs at most once; once the guard
    is set, a request of the read pump or of the Hub changes neither the
    transport, the guard nor the queue; the write pump does not consult
    the guard, so the transport's [Close] is called at most once through
    [close] and once more for every exit of the write pump. *)
Theorem close_guard (rs : list CloseRequest) (w : World) :
  closed (cli w) = false ->
  chCloses (send (cli w)) = 0 ->
  let w' := closeRequests rs w in
  chCloses (send (cli w')) <= 1 /\
  wsCloseCalls (ws (cli w')) <= wsCloseCalls (ws (cli w)) + 1 + writePumpExits rs /\
  (closed (cli w') = true ->
   forall r, r ≠ ByWritePump -> sameConn w' (closeRequest r w')).
Proof.
  intros Hc Hq w'.
  assert (Hinv : guardInv (wsCloseCalls (ws (cli w))) 0 w).
  { unfold guardInv. rewrite Hc, Hq. lia. }
  apply (guardInv_closeRequests _ _ rs) in Hinv. fold w' in Hinv.
  destruct Hinv as [H1 H2]. simpl in H2.
  split; [destruct (closed (cli w')); lia|].
  split; [destruct (closed (cli w')); lia|].
  intros Hc' r Hr. by apply guarded_request_noop.
Qed.

Lemma send_closeRequests_closed (rs : list CloseRequest) (w : World) :
  closed (cli w) = true ->
  send (cli (closeRequests rs w)) = send (cli w) /\
  closed (cli (closeRequests rs w)) = true.
Proof.
  revert w. induction rs as [|r rest IH]; intros w Hc; simpl; [done|].
  assert (Hstep : send (cli (closeRequest r w)) = send (cli w) /\
                  closed (cli (closeRequest r w)) = true).
  { destruct r; simpl.
    - unfold doUnregister. rewrite close_closed by exact Hc. done.
    - done.
    - rewrite close_closed by exact Hc. done. }
  destruct Hstep as [Hs Hc2]. destruct (IH _ Hc2) as [Hs' Hc3].
  split; [congruence | exact Hc3].
Qed.

(** C10. When [close] is called with the guard unset and closing the
    transport fails (because it is closed already, or for any other
    reason), the outbound queue is not closed but the guard is set:
    calling [close] again changes nothing, and no later close request of
    any source closes the queue.  In general [close] closes the queue
    exactly when the guard was unset and closing the transport succeeded. *)
Theorem close_after_failed_transport_close (w : World) :
  closed (cli w) = false ->
  snd (wsClose (ws (cli w))) = true ->
  let w' := close w in
  send (cli w') = send (cli w) /\
  closed (cli w') = true /\
  close w' = w' /\
  (forall rs, send (cli (closeRequests rs w')) = send (cli w)) /\
  (forall w0 : World,
     chCloses (send (cli (close w0))) =
       chCloses (send (cli w0)) +
       (if negb (closed (cli w0)) && negb (snd (wsClose (ws (cli w0)))) then 1 else 0)).
Proof.
  intros Hc Hws w'.
  assert (Hs : send (cli w') = send (cli w)).
  { subst w'. unfold close. rewrite Hc. simpl in *. by rewrite Hws. }
  assert (Hc' : closed (cli w') = true) by apply closed_close.
  split; [exact Hs|]. split; [exact Hc'|].
  split; [by apply close_closed|].
  split.
  - intros rs. destruct (send_closeRequests_closed rs w' Hc') as [H _]. congruence.
  - intros w0. apply close_counts.
Qed.

End Closing.

(** ** Re-subscribing while the Hub lags behind *)

Section Undisturbed.
Context {PublishMessage : Type}.
Variable json : Decoders PublishMessage.
Local Abbreviation World := (@World PublishMessage).
Local Abbreviation Event := (@Event PublishMessage).

Lemma agree_refl (w : World) : agree w w.
Proof. by split. Qed.

Lemma agree_trans (w1 w2 w3 : World) : agree w1 w2 -> agree w2 w3 -> agree w1 w3.
Proof. intros [? ?] [? ?]. split; congruence. Qed.

Lemma agree_sym (w1 w2 : World) : agree w1 w2 -> agree w2 w1.
Proof. intros [? ?]. by split. Qed.

Lemma agree_topicsOf (w w' : World) : agree w w' -> topicsOf w = topicsOf w'.
Proof. intros [H _]. unfold topicsOf. by rewrite H. Qed.

Lemma agree_hubHandle (m : ChanMsg) (w w' : World) :
  agree w w' -> agree (hubHandle m w) (hubHandle m w').
Proof.
  intros [Hc Hs]. destruct w as [c s k q t o], w' as [c' s' k' q' t' o'].
  simpl in Hc, Hs. subst c' s'.
  destruct m as [sub|sub|id]; simpl.
  - unfold doSubscribe, topicsOf, subscribersOf. simpl. case_decide; by split.
  - unfold doUnsubscribe, RemoveTopic, subscribersOf. simpl.
    case_decide; by split.
  - unfold doUnregister, close. simpl.
    destruct (closed c); [by split|].
    simpl. destruct (wsClosed (ws c) || wsCloseFails (ws c)); by split.
Qed.

Lemma agree_handleList (ms : list ChanMsg) (w w' : World) :
  agree w w' -> agree (handleList ms w) (handleList ms w').
Proof.
  revert w w'. induction ms as [|m rest IH]; intros w w' H; simpl; [exact H|].
  apply IH. by apply agree_hubHandle.
Qed.

Lemma handleList_app (ms1 ms2 : list ChanMsg) (w : World) :
  handleList (ms1 ++ ms2) w = handleList ms2 (handleList ms1 w).
Proof. revert w. induction ms1 as [|m rest IH]; intros w; simpl; [done|]. apply IH. Qed.

(** Handling the first [k] pending messages is handling them as a list;
    the others stay in the inbox. *)
Lemma hubSteps_handleList (k : nat) (pending : list ChanMsg) (w : World) :
  agree (hubSteps k pending w) (handleList (take k pending) w) /\
  inbox (hubSteps k pending w) = drop k pending.
Proof.
  revert k w. induction pending as [|m rest IH]; intros k w; simpl.
  - rewrite take_nil, drop_nil. by split.
  - destruct k as [|k]; simpl; [by split|].
    destruct (IH k (hubHandle m (setInbox rest w))) as [Ha Hi].
    split; [|exact Hi].
    eapply agree_trans; [exact Ha|].
    apply agree_handleList, agree_hubHandle. by split.
Qed.

(** What the Hub will have made of the world once it has caught up. *)
Lemma hubDrain_handleList (w : World) :
  agree (hubDrain w) (handleList (inbox w) w).
Proof.
  unfold hubDrain, hubRun.
  destruct (hubSteps_handleList (length (inbox w)) (inbox w) w) as [H _].
  by rewrite firstn_all in H.
Qed.

(** Sending [m] puts it behind everything already sent, whenever the Hub
    gets to handle the older messages. *)
Lemma chanSend_handleList (m : ChanMsg) (w : World) :
  agree (handleList (inbox (chanSend m w)) (chanSend m w))
        (hubHandle m (handleList (inbox w) w)).
Proof.
  unfold chanSend. set (k := length (inbox w) - chanCap w).
  destruct (hubSteps_handleList k (inbox w) w) as [Ha Hi].
  fold (hubRun k w) in Ha, Hi. simpl. rewrite Hi, handleList_app. simpl.
  apply agree_hubHandle.
  eapply agree_trans.
  { apply agree_handleList. eapply agree_trans; [|exact Ha]. by split. }
  rewrite <- handleList_app. by rewrite take_drop.
Qed.

Lemma sends_logs (tr : list Event) : Forall isLog tr -> sends tr = [].
Proof.
  induction 1 as [|e tr He _ IH]; [done|].
  destruct e; simpl in *; done.
Qed.

Lemma sends_app (tr1 tr2 : list Event) : sends (tr1 ++ tr2) = sends tr1 ++ sends tr2.
Proof. apply omap_app. Qed.

Lemma sends_chanSend (m : ChanMsg) (w : World) :
  sends (trace (chanSend m w)) = sends (trace w) ++ [m].
Proof.
  rewrite trace_chanSend, sends_app.
  destruct (evolves_hubRun (length (inbox w) - chanCap w) w) as (_ & _ & tr & Ht & Hq).
  rewrite Ht, sends_app, (sends_logs tr Hq). by rewrite app_nil_r.
Qed.

Lemma ID_chanSend (m : ChanMsg) (w : World) : ID (cli (chanSend m w)) = ID (cli w).
Proof.
  destruct (evolves_chanSend (fun _ => True) m w) as [H _]; [done | done | exact H].
Qed.

Lemma SubscribeMultiple_sends (topics : list string) (w : World) :
  sends (trace (SubscribeMultiple topics w)) =
    sends (trace w) ++ map (subscribeMsg (ID (cli w))) topics /\
  agree (handleList (inbox (SubscribeMultiple topics w)) (SubscribeMultiple topics w))
        (handleList (map (subscribeMsg (ID (cli w))) topics) (handleList (inbox w) w)).
Proof.
  revert w. induction topics as [|t rest IH]; intros w; simpl.
  - rewrite app_nil_r. split; [done | apply agree_refl].
  - destruct (IH (Subscribe t w)) as [Hs Ha]. unfold Subscribe in *.
    rewrite ID_chanSend in Hs, Ha. rewrite sends_chanSend in Hs.
    split; [by rewrite Hs, <- app_assoc|].
    eapply agree_trans; [exact Ha|].
    apply agree_handleList, chanSend_handleList.
Qed.

(** With room in the channel and the Hub not scheduled, a send only
    queues the message. *)
Lemma chanSend_roomy (m : ChanMsg) (w : World) :
  length (inbox w) <= chanCap w -> chanSend m w = afterSends [m] w.
Proof.
  intros H. unfold chanSend.
  replace (length (inbox w) - chanCap w) with 0 by lia.
  assert (H0 : hubRun 0 w = w).
  { unfold hubRun. destruct w as [c s k q t o]. simpl. by destruct q. }
  by rewrite H0.
Qed.

Lemma afterSends_app (ms1 ms2 : list ChanMsg) (w : World) :
  afterSends ms2 (afterSends ms1 w) = afterSends (ms1 ++ ms2) w.
Proof. unfold afterSends. simpl. by rewrite map_app, !app_assoc. Qed.

Lemma rangeUnsubscribe_roomy (n i : nat) (w : World) :
  oracle w = [] -> length (inbox w) + n <= chanCap w ->
  rangeUnsubscribe n i w =
    afterSends (map (fun j => unsubscribeMsg (ID (cli w))
                                (nth j (backing (Topics (cli w))) ""))
                    (seq i n)) w.
Proof.
  revert i w. induction n as [|n IH]; intros i w Ho Hroom; simpl.
  - unfold afterSends. simpl. rewrite !app_nil_r. by destruct w.
  - assert (Hy : yield w = w) by (unfold yield; by rewrite Ho).
    rewrite Hy. unfold Unsubscribe. rewrite chanSend_roomy by lia.
    rewrite IH; [apply afterSends_app | exact Ho |].
    simpl. rewrite length_app. simpl. lia.
Qed.

Lemma nth_seq_view (l : list string) (i n : nat) :
  i + n <= length l -> map (fun j => nth j l "") (seq i n) = take n (drop i l).
Proof.
  revert i. induction n as [|n IH]; intros i H; simpl; [done|].
  destruct (lookup_lt_is_Some_2 l i ltac:(lia)) as [x Hx].
  rewrite (drop_S l x i Hx). simpl. rewrite (nth_lookup_Some _ _ _ _ Hx).
  f_equal. apply IH. lia.
Qed.

Lemma topicsOf_handleList_unsubscribe (id : string) (ts : list string) (w : World) :
  wfWorld w ->
  wfWorld (handleList (map (unsubscribeMsg id) ts) w) /\
  topicsOf (handleList (map (unsubscribeMsg id) ts) w) =
    foldl (fun l t => removeFirst t l) (topicsOf w) ts.
Proof.
  revert w. induction ts as [|t rest IH]; intros w Hwf; simpl; [done|].
  destruct (IH (doUnsubscribe (mkSubscription t id) w)) as [Hwf' Ht].
  { by apply (wf_hubHandle (MsgUnsubscribe _)). }
  split; [exact Hwf'|]. rewrite Ht. by rewrite topicsOf_doUnsubscribe.
Qed.

Lemma topicsOf_handleList_subscribe (id : string) (ts : list string) (w : World) :
  wfWorld w ->
  topicsOf (handleList (map (subscribeMsg id) ts) w) =
    foldl addTopicOnce (topicsOf w) ts.
Proof.
  revert w. induction ts as [|t rest IH]; intros w Hwf; simpl; [done|].
  rewrite IH by (by apply (wf_hubHandle (MsgSubscribe _))).
  by rewrite topicsOf_doSubscribe by exact Hwf.
Qed.

(** Removing the elements of a list from it one by one, front to back,
    first occurrence each time, leaves what was behind them. *)
Lemma removeFirst_all (ts rest : list string) :
  foldl (fun l t => removeFirst t l) (ts ++ rest) ts = rest.
Proof.
  induction ts as [|t ts IH]; simpl; [done|]. by rewrite decide_True.
Qed.

(** The subscribe frame as the specification describes it.  If the Hub's
    channels have room for one Unsubscribe per current topic and the Hub
    handles none of them before [UnsubscribeAll] is through, then a frame
    with action "subscribe" and topic list [topics] sends an Unsubscribe
    for every topic of the connection, in list order, then a Subscribe for
    every topic of [topics], in list order; and when the Hub has handled
    them all, the connection's topic list is [topics] with every repetition
    of a topic after its first occurrence left out. *)
Lemma resubscribe_undisturbed (payload : string) (topics : list string) (w : World) :
  unmarshalAction json payload = Some "subscribe" ->
  unmarshalSubscriptions json payload = Some topics ->
  wfWorld w -> inbox w = [] -> oracle w = [] ->
  len (Topics (cli w)) <= chanCap w ->
  let w' := handleMessage json payload w in
  sends (trace w') =
    sends (trace w) ++ map (unsubscribeMsg (ID (cli w))) (topicsOf w)
                    ++ map (subscribeMsg (ID (cli w))) topics /\
  topicsOf (hubDrain w') = foldl addTopicOnce [] topics.
Proof.
  intros Ha Hs Hwf Hin Ho Hroom w'. subst w'. unfold handleMessage.
  rewrite Ha, decide_True by reflexivity. rewrite Hs.
  set (w1 := emit _ w).
  assert (Hu : UnsubscribeAll w1 =
               afterSends (map (unsubscribeMsg (ID (cli w))) (topicsOf w)) w1).
  { unfold UnsubscribeAll. rewrite rangeUnsubscribe_roomy.
    - subst w1. simpl. f_equal.
      transitivity (map (unsubscribeMsg (ID (cli w)))
                      (map (fun j => nth j (backing (Topics (cli w))) "")
                         (seq 0 (len (Topics (cli w)))))); [by rewrite map_map|].
      f_equal. unfold topicsOf, view. rewrite nth_seq_view; [by rewrite drop_0|].
      exact Hwf.
    - exact Ho.
    - subst w1. simpl. rewrite Hin. simpl. exact Hroom. }
  rewrite Hu. set (w2 := afterSends _ w1).
  destruct (SubscribeMultiple_sends topics w2) as [Hsend Hagree].
  split.
  - rewrite Hsend. subst w2 w1. simpl. rewrite !sends_app. simpl.
    rewrite app_nil_r, <- app_assoc. f_equal. f_equal.
    clear. induction (topicsOf w) as [|t ts IH]; simpl; [done|]. by rewrite IH.
  - rewrite (agree_topicsOf _ _ (hubDrain_handleList _)).
    rewrite (agree_topicsOf _ _ Hagree).
    assert (H2 : agree (handleList (inbox w2) w2)
                   (handleList (map (unsubscribeMsg (ID (cli w))) (topicsOf w)) w)).
    { subst w2 w1. simpl. rewrite Hin. simpl. apply agree_handleList. by split. }
    rewrite (agree_topicsOf _ _ (agree_handleList _ _ _ H2)).
    destruct (topicsOf_handleList_unsubscribe (ID (cli w)) (topicsOf w) w Hwf)
      as [Hwf' Ht].
    replace (ID (cli w2)) with (ID (cli w)) by reflexivity.
    rewrite topicsOf_handleList_subscribe by exact Hwf'.
    rewrite Ht. rewrite <- (app_nil_r (topicsOf w)) at 1.
    by rewrite removeFirst_all.
Qed.

End Undisturbed.

(** ** Re-subscribing while the Hub removes topics *)

Section Resubscribe.
Context {PublishMessage : Type}.
Variable json : Decoders PublishMessage.
Local Abbreviation World := (@World PublishMessage).
Local Abbreviation Event := (@Event PublishMessage).

(** All schedules over the four iterations of the range loop: at each
    yield the Hub handles nothing, or (the inbox holding one message at
    most) all there is. *)
Ltac schedule_cases sched :=
  destruct sched as [|[|?] [|[|?] [|[|?] [|[|?] ?]]]].

(** C1, at the failing input. A connection subscribed to "a", "b", "c", "d"
    receives a subscribe frame with an empty topic list, the channels of
    the Hub being unbuffered.  Whatever the schedule, the range loop of
    [UnsubscribeAll] reads "d" twice and never reads one of "b" and "c":
    no Unsubscribe is sent for that topic, and when the Hub has handled
    everything the connection still has it in its topic list and is still
    among its subscribers. *)
Theorem resubscribe_skips_a_topic (payload : string) (sched : list nat) :
  unmarshalAction json payload = Some "subscribe" ->
  unmarshalSubscriptions json payload = Some [] ->
  let w := fourTopics 0 sched in
  let w' := hubDrain (handleMessage json payload w) in
  topicsOf w = ["a"; "b"; "c"; "d"] /\ inbox w = [] /\
  ((unsubscribedTopics (trace w') = ["a"; "b"; "d"; "d"] /\
    topicsOf w' = ["c"] /\ ("c1" ∈ subscribersOf "c" w')) \/
   (unsubscribedTopics (trace w') = ["a"; "c"; "d"; "d"] /\
    topicsOf w' = ["b"] /\ ("c1" ∈ subscribersOf "b" w'))).
Proof.
  intros Ha Hs w w'. subst w w'. unfold handleMessage.
  rewrite Ha, decide_True by reflexivity. rewrite Hs.
  split; [reflexivity|]. split; [reflexivity|].
  schedule_cases sched; vm_compute;
    first [left; repeat split; reflexivity | right; repeat split; reflexivity].
Qed.

(** The same frame on channels of any capacity, when the Hub handles every
    Unsubscribe as soon as it is sent: "b" is skipped. *)
Lemma resubscribe_eager_hub (payload : string) (capacity : nat) :
  unmarshalAction json payload = Some "subscribe" ->
  unmarshalSubscriptions json payload = Some [] ->
  let w' := hubDrain (handleMessage json payload (fourTopics capacity [1; 1; 1; 1])) in
  unsubscribedTopics (trace w') = ["a"; "c"; "d"; "d"] /\
  topicsOf w' = ["b"] /\ ("c1" ∈ subscribersOf "b" w').
Proof.
  intros Ha Hs w'. subst w'. unfold handleMessage.
  rewrite Ha, decide_True by reflexivity. rewrite Hs.
  destruct capacity as [|[|[|capacity]]]; vm_compute; repeat split; reflexivity.
Qed.

(** C8, at the failing input. The same connection receives a subscribe
    frame whose topics do not decode.  The frame ends with the error line
    and sends no Subscribe, and [UnsubscribeAll] has run before the decode;
    but, whatever the schedule, it sent no Unsubscribe for one of "b" and
    "c", which the connection keeps. *)
Theorem malformed_resubscribe_keeps_a_topic (payload : string) (sched : list nat) :
  unmarshalAction json payload = Some "subscribe" ->
  unmarshalSubscriptions json payload = None ->
  let w := fourTopics 0 sched in
  let w1 := handleMessage json payload w in
  let w' := hubDrain w1 in
  topicsOf w = ["a"; "b"; "c"; "d"] /\ inbox w = [] /\
  last (trace w1) = Some invalidData /\
  subscribedTopics (trace w1) = subscribedTopics (trace w) /\
  ((unsubscribedTopics (trace w') = ["a"; "b"; "d"; "d"] /\
    topicsOf w' = ["c"] /\ ("c1" ∈ subscribersOf "c" w')) \/
   (unsubscribedTopics (trace w') = ["a"; "c"; "d"; "d"] /\
    topicsOf w' = ["b"] /\ ("c1" ∈ subscribersOf "b" w'))).
Proof.
  intros Ha Hs w w1 w'. subst w w1 w'. unfold handleMessage.
  rewrite Ha, decide_True by reflexivity. rewrite Hs.
  split; [reflexivity|]. split; [reflexivity|].
  schedule_cases sched; vm_compute;
    (split; [reflexivity|]); (split; [reflexivity|]);
    first [left; repeat split; reflexivity | right; repeat split; reflexivity].
Qed.

End Resubscribe.

(** * Further properties of client.go *)

(** ** AddTopic and RemoveTopic on the slice *)

Section TopicSlice.
Context {PublishMessage : Type}.
Local Abbreviation World := (@World PublishMessage).

Lemma rangeFind_absent (topic : string) (ts : list string) (idx : Z) :
  (0 <= idx)%Z -> (rangeFind topic ts idx = (-1)%Z <-> topic ∉ ts).
Proof.
  intros Hidx.
  destruct (rangeFind_spec topic ts idx Hidx) as [[Hn Hr] | (i & Hr & Hi & _)].
  - by split.
  - split; [lia|]. intros Hn. exfalso. apply Hn.
    apply list_elem_of_lookup. by exists i.
Qed.

(** X1. [RemoveTopic] leaves everything as it is (topic list, array, log)
    exactly when the topic is not in the connection's topic list. *)
Theorem RemoveTopic_noop_iff_absent (topic : string) (w : World) :
  RemoveTopic topic w = w <-> topic ∉ topicsOf w.
Proof.
  unfold RemoveTopic, topicsOf.
  pose proof (rangeFind_absent topic (view (Topics (cli w))) 0 ltac:(lia)) as Habs.
  case_decide as Hf.
  - split.
    + intros Heq. apply (f_equal (fun x => length (trace x))) in Heq.
      simpl in Heq. rewrite length_app in Heq. simpl in Heq. lia.
    + intros Hn. apply Habs in Hn. contradiction.
  - split; [|done]. intros _. apply Habs.
    destruct (decide (rangeFind topic (view (Topics (cli w))) 0 = (-1)%Z)); [done|].
    contradiction.
Qed.

Lemma spliceOut_in_place (topic : string) (w : World) :
  wfWorld w ->
  topic ∈ topicsOf w ->
  let s := Topics (cli w) in
  let s' := Topics (cli (RemoveTopic topic w)) in
  cap s' = cap s /\
  len s' = len s - 1 /\
  drop (len s') (backing s') = drop (len s') (backing s) /\
  backing s' !! len s' = last (view s).
Proof.
  intros Hwf Hin s s'. subst s s'. unfold RemoveTopic.
  destruct (rangeFind_spec topic (view (Topics (cli w))) 0 ltac:(lia))
    as [[Hn _] | (i & Hr & Hi & _)]; [contradiction|].
  rewrite Hr. rewrite decide_True by lia. simpl.
  replace (Z.to_nat (0 + Z.of_nat i)) with i by lia.
  apply lookup_lt_Some in Hi. rewrite view_length in Hi by exact Hwf.
  set (s := Topics (cli w)) in *.
  assert (Hcap : len s <= length (backing s)) by exact Hwf.
  assert (Hl : length (take i (backing s) ++ drop (S i) (view s)) = len s - 1).
  { rewrite length_app, length_take, length_drop, view_length by exact Hwf. lia. }
  assert (Hdrop : drop (len s - 1) (backing (spliceOut s i))
                  = drop (len s - 1) (backing s)).
  { unfold spliceOut. simpl. rewrite app_assoc.
    rewrite drop_app_length'; [reflexivity | by rewrite Hl]. }
  split; [by apply cap_spliceOut|]. split; [reflexivity|]. split; [exact Hdrop|].
  simpl. rewrite app_assoc, lookup_app_r by (rewrite Hl; lia).
  rewrite Hl, Nat.sub_diag, lookup_drop, Nat.add_0_r.
  unfold view. rewrite last_lookup, length_take.
  replace (Init.Nat.pred (len s `min` length (backing s))) with (len s - 1) by lia.
  rewrite lookup_take_lt by lia. reflexivity.
Qed.

(** X2. [RemoveTopic] of a topic that is present works inside the array of
    [c.Topics]: the capacity stays, the length drops by one, and the cells
    from the new length on are untouched, so the former last element is
    still in the array, right behind the slice. *)
Theorem RemoveTopic_in_place (topic : string) (w : World) :
  wfWorld w ->
  topic ∈ topicsOf w ->
  let s := Topics (cli w) in
  let s' := Topics (cli (RemoveTopic topic w)) in
  cap s' = cap s /\
  len s' = len s - 1 /\
  drop (len s') (backing s') = drop (len s') (backing s) /\
  backing s' !! len s' = last (view s).
Proof. apply spliceOut_in_place. Qed.

Lemma removeFirst_snoc_absent (topic : string) (ts : list string) :
  topic ∉ ts -> removeFirst topic (ts ++ [topic]) = ts.
Proof.
  induction ts as [|t ts IH]; intros Hn; simpl.
  - by rewrite decide_True.
  - apply not_elem_of_cons in Hn as [Hne Hn].
    rewrite decide_False by congruence. f_equal. by apply IH.
Qed.

(** X3. Adding a topic that is not in the list and removing it again gives
    back the topic list. *)
Theorem AddTopic_RemoveTopic_roundtrip (topic : string) (w : World) :
  wfWorld w ->
  topic ∉ topicsOf w ->
  topicsOf (RemoveTopic topic (AddTopic topic w)) = topicsOf w.
Proof.
  intros Hwf Hn.
  rewrite topicsOf_RemoveTopic by (by apply wf_AddTopic).
  rewrite topicsOf_AddTopic by exact Hwf.
  by apply removeFirst_snoc_absent.
Qed.

(** X4. After a topic was removed, the next [AddTopic] does not allocate:
    it writes into the cell the removal left behind the slice, so the
    capacity is as before the removal; the list is the old one without the
    first occurrence of the removed topic, followed by the new topic. *)
Theorem AddTopic_reuses_removed_cell (removed added : string) (w : World) :
  wfWorld w ->
  removed ∈ topicsOf w ->
  let w' := AddTopic added (RemoveTopic removed w) in
  cap (Topics (cli w')) = cap (Topics (cli w)) /\
  len (Topics (cli w')) = len (Topics (cli w)) /\
  topicsOf w' = removeFirst removed (topicsOf w) ++ [added].
Proof.
  intros Hwf Hin w'. subst w'.
  destruct (spliceOut_in_place removed w Hwf Hin) as (Hcap & Hlen & _ & _).
  pose proof (wf_RemoveTopic removed w Hwf) as Hwf'.
  assert (Hpos : 0 < len (Topics (cli w))).
  { apply list_elem_of_lookup in Hin as [i Hi]. apply lookup_lt_Some in Hi.
    unfold topicsOf in Hi. rewrite view_length in Hi by exact Hwf. lia. }
  split; [|split].
  - unfold AddTopic. simpl. unfold append1.
    rewrite decide_True by (rewrite Hcap, Hlen; unfold wfWorld, wfSlice in Hwf; lia).
    unfold cap in *. simpl. by rewrite length_insert.
  - unfold AddTopic. simpl. unfold append1.
    case_decide; simpl; lia.
  - rewrite topicsOf_AddTopic by exact Hwf'.
    by rewrite topicsOf_RemoveTopic.
Qed.

(** X17. [AddTopic] makes no membership test: the topic is appended at the
    end of the list whether it is in it or not, so it occurs once more than
    before; the subscriber sets are not touched; and adding a topic the
    list has already leaves it with a duplicate.  Keeping the list free of
    duplicates is left to the caller. *)
Theorem AddTopic_appends_always (topic : string) (w : World) :
  wfWorld w ->
  topicsOf (AddTopic topic w) = topicsOf w ++ [topic] /\
  occurrences topic (topicsOf (AddTopic topic w)) = S (occurrences topic (topicsOf w)) /\
  subscribers (AddTopic topic w) = subscribers w /\
  (topic ∈ topicsOf w -> ~ NoDup (topicsOf (AddTopic topic w))).
Proof.
  intros Hwf. rewrite topicsOf_AddTopic by exact Hwf.
  split; [reflexivity|]. split; [|split; [reflexivity|]].
  - unfold occurrences. rewrite filter_app, length_app.
    rewrite filter_cons_True by reflexivity. simpl. lia.
  - intros Hin Hnd. apply NoDup_app in Hnd as (_ & Hd & _).
    apply (Hd topic Hin). by apply list_elem_of_singleton.
Qed.

End TopicSlice.

(** ** The range loop of UnsubscribeAll under any schedule *)

Lemma spliceOut_cells (s : Slice) (i N : nat) :
  wfSlice s -> i < len s -> len s <= N ->
  drop (N - 1) (backing (spliceOut s i)) = drop (N - 1) (backing s).
Proof.
  intros Hwf Hi HN. unfold wfSlice, cap in Hwf.
  assert (Hl1 : length (take i (backing s)) = i) by (rewrite length_take; lia).
  assert (Hl2 : length (drop (S i) (view s)) = len s - S i).
  { rewrite length_drop, view_length by exact Hwf. reflexivity. }
  unfold spliceOut. simpl. rewrite app_assoc.
  replace (N - 1) with (len s - 1 + (N - len s)) by lia.
  rewrite <- !drop_drop. f_equal.
  apply drop_app_length'. rewrite length_app, Hl1, Hl2. lia.
Qed.

Section RangeLoop.
Context {PublishMessage : Type}.
Local Abbreviation World := (@World PublishMessage).
Local Abbreviation Event := (@Event PublishMessage).

Lemma arrayKept_RemoveTopic (N : nat) (b0 : list string) (topic : string) (w : World) :
  arrayKept N b0 w -> arrayKept N b0 (RemoveTopic topic w).
Proof.
  intros (Hwf & Hlen & Hcap & Hdrop). unfold RemoveTopic.
  destruct (rangeFind_spec topic (view (Topics (cli w))) 0 ltac:(lia))
    as [[_ Hr] | (i & Hr & Hi & _)]; rewrite Hr.
  - rewrite decide_False by (intros Hc; by apply Hc). by repeat split.
  - rewrite decide_True by lia.
    replace (Z.to_nat (0 + Z.of_nat i)) with i by lia.
    apply lookup_lt_Some in Hi. rewrite view_length in Hi by exact Hwf.
    pose proof (spliceOut_cells (Topics (cli w)) i N Hwf Hi Hlen) as Hd'.
    pose proof (wf_spliceOut (Topics (cli w)) i Hwf) as Hwf'.
    pose proof (cap_spliceOut (Topics (cli w)) i Hwf Hi) as Hcap'.
    assert (Hlen' : len (spliceOut (Topics (cli w)) i) <= N) by (simpl; lia).
    set (s' := spliceOut (Topics (cli w)) i) in *.
    unfold arrayKept.
    change (Topics (cli (setCli (setTopics s' (cli w)) _))) with s'.
    split; [exact Hwf'|]. split; [exact Hlen'|].
    split; [by rewrite Hcap'|]. by rewrite Hd'.
Qed.

Lemma arrayKept_hubSteps (N : nat) (b0 : list string) (k : nat)
    (pending : list ChanMsg) (w : World) :
  Forall (fun m => match m with MsgUnsubscribe _ => True | _ => False end) pending ->
  arrayKept N b0 w ->
  arrayKept N b0 (hubSteps k pending w) /\ onlyUnsubscribes (hubSteps k pending w).
Proof.
  revert k w. induction pending as [|m rest IH]; intros k w Hp Hk; simpl.
  - split; [exact Hk | constructor].
  - destruct k as [|k]; [split; [exact Hk | exact Hp]|].
    apply Forall_cons in Hp as [Hm Hrest]. apply IH; [exact Hrest|].
    destruct m as [s|s|id]; try destruct Hm. simpl. unfold doUnsubscribe.
    by apply arrayKept_RemoveTopic.
Qed.

Lemma arrayKept_yield (N : nat) (b0 : list string) (w : World) :
  arrayKept N b0 w -> onlyUnsubscribes w ->
  arrayKept N b0 (yield w) /\ onlyUnsubscribes (yield w).
Proof.
  intros Hk Ho. unfold yield. destruct (oracle w) as [|k o]; [by split|].
  by apply arrayKept_hubSteps.
Qed.

Lemma arrayKept_Unsubscribe (N : nat) (b0 : list string) (topic : string) (w : World) :
  arrayKept N b0 w -> onlyUnsubscribes w ->
  arrayKept N b0 (Unsubscribe topic w) /\ onlyUnsubscribes (Unsubscribe topic w).
Proof.
  intros Hk Ho. unfold Unsubscribe, chanSend.
  destruct (arrayKept_hubSteps N b0 (length (inbox w) - chanCap w) (inbox w) w Ho Hk)
    as [Hk' Ho'].
  split; [exact Hk'|].
  unfold onlyUnsubscribes. simpl. apply Forall_app. split; [exact Ho'|].
  by repeat constructor.
Qed.

Lemma sends_yield (w : World) : sends (trace (yield w)) = sends (trace w).
Proof.
  destruct (evolves_yield w) as (_ & _ & tr & Ht & Hq).
  rewrite Ht, sends_app, (sends_logs tr Hq). by rewrite app_nil_r.
Qed.

Lemma ID_yield (w : World) : ID (cli (yield w)) = ID (cli w).
Proof. by destruct (evolves_yield w) as [H _]. Qed.

Lemma eventual_hubRun (k : nat) (w : World) : agree (eventual (hubRun k w)) (eventual w).
Proof.
  unfold eventual, hubRun.
  destruct (hubSteps_handleList k (inbox w) w) as [Ha Hi]. rewrite Hi.
  eapply agree_trans; [apply agree_handleList; exact Ha|].
  rewrite <- handleList_app, take_drop. apply agree_refl.
Qed.

Lemma eventual_yield (w : World) : agree (eventual (yield w)) (eventual w).
Proof.
  unfold yield. destruct (oracle w) as [|k o]; [apply agree_refl|].
  eapply agree_trans; [apply eventual_hubRun|].
  unfold eventual. simpl. apply agree_handleList. by split.
Qed.

Lemma yield_idle (w : World) : inbox w = [] -> cli (yield w) = cli w.
Proof.
  intros Hin. unfold yield. destruct (oracle w) as [|k o]; [done|].
  unfold hubRun. simpl. by rewrite Hin.
Qed.

(** What the loop sends and what the Hub makes of it in the end, for any
    schedule; and, while the Hub only removes topics, which cells its first
    and its last iteration read. *)
Lemma rangeUnsubscribe_sent (N : nat) (b0 : list string) (n i : nat) (w : World) :
  exists ts,
    length ts = n /\
    sends (trace (rangeUnsubscribe n i w)) =
      sends (trace w) ++ map (unsubscribeMsg (ID (cli w))) ts /\
    agree (eventual (rangeUnsubscribe n i w))
          (handleList (map (unsubscribeMsg (ID (cli w))) ts) (eventual w)) /\
    (arrayKept N b0 w -> onlyUnsubscribes w -> i + n <= N ->
       (0 < n -> i + n = N -> last ts = b0 !! (N - 1)) /\
       (inbox w = [] -> 0 < n -> head ts = backing (Topics (cli w)) !! i)).
Proof.
  revert i w. induction n as [|n IH]; intros i w.
  - exists []. simpl. rewrite app_nil_r.
    split; [done|]. split; [done|]. split; [apply agree_refl|].
    intros _ _ _. split; intros; lia.
  - simpl. set (w1 := yield w).
    set (topic := nth i (backing (Topics (cli w1))) "").
    destruct (IH (S i) (Unsubscribe topic w1)) as (ts & Hlen & Hsend & Hagree & Hinv).
    assert (Hid1 : ID (cli w1) = ID (cli w)) by apply ID_yield.
    assert (Hid2 : ID (cli (Unsubscribe topic w1)) = ID (cli w)).
    { unfold Unsubscribe. by rewrite ID_chanSend. }
    rewrite Hid2 in Hsend, Hagree.
    exists (topic :: ts). split; [simpl; by rewrite Hlen|]. split; [|split].
    + rewrite Hsend. unfold Unsubscribe. rewrite sends_chanSend.
      subst w1. rewrite sends_yield, ID_yield. simpl.
      by rewrite <- app_assoc.
    + eapply agree_trans; [exact Hagree|]. cbn [map handleList].
      apply agree_handleList. unfold eventual at 1. unfold Unsubscribe.
      eapply agree_trans; [apply chanSend_handleList|].
      rewrite Hid1. apply (agree_hubHandle (unsubscribeMsg (ID (cli w)) topic)).
      apply eventual_yield.
    + intros Hk Ho Hn.
      destruct (arrayKept_yield N b0 w Hk Ho) as [Hk1 Ho1]. fold w1 in Hk1, Ho1.
      destruct (arrayKept_Unsubscribe N b0 topic w1 Hk1 Ho1) as [Hk2 Ho2].
      destruct (Hinv Hk2 Ho2 ltac:(lia)) as (Hlast & _).
      destruct Hk1 as (Hwf1 & Hlen1 & Hcap1 & Hdrop1).
      assert (Hcell : backing (Topics (cli w1)) !! i = Some topic).
      { destruct (lookup_lt_is_Some_2 (backing (Topics (cli w1))) i) as [x Hx].
        { unfold cap in Hcap1. lia. }
        subst topic. by rewrite (nth_lookup_Some _ _ _ _ Hx). }
      split.
      * intros _ HN. destruct n as [|n].
        -- destruct ts; [|discriminate Hlen]. simpl.
           rewrite <- Hcell. replace i with (N - 1 + 0) at 1 by lia.
           rewrite <- lookup_drop, Hdrop1, lookup_drop. f_equal. lia.
        -- destruct ts as [|t ts]; [discriminate Hlen|].
           change (last (topic :: t :: ts)) with (last (t :: ts)).
           apply Hlast; lia.
      * intros Hin _. simpl. rewrite <- Hcell. subst w1.
        by rewrite yield_idle.
Qed.

End RangeLoop.

(** ** Subscribe, SubscribeMultiple and UnsubscribeAll *)

Section PumpSends.
Context {PublishMessage : Type}.
Variable json : Decoders PublishMessage.
Local Abbreviation World := (@World PublishMessage).
Local Abbreviation Event := (@Event PublishMessage).

Lemma wf_handleList (ms : list ChanMsg) (w : World) :
  wfWorld w -> wfWorld (handleList ms w).
Proof.
  revert w. induction ms as [|m rest IH]; intros w H; simpl; [exact H|].
  apply IH. by apply wf_hubHandle.
Qed.

Lemma agree_wf (w w' : World) : agree w w' -> wfWorld w -> wfWorld w'.
Proof. intros [H _]. unfold wfWorld. by rewrite H. Qed.

Lemma topicsOf_hubDrain (w : World) : topicsOf (hubDrain w) = topicsOf (eventual w).
Proof. apply agree_topicsOf, hubDrain_handleList. Qed.

(** X5. [SubscribeMultiple] sends one Subscribe message per element of the
    list, in list order and with repetitions, each carrying this client;
    once the Hub has caught up, the connection's topic list is what the
    older messages left, with the topics of the list added one after the
    other, each at the end and only if it is not there yet. *)
Theorem SubscribeMultiple_in_order (topics : list string) (w : World) :
  wfWorld w ->
  sends (trace (SubscribeMultiple topics w)) =
    sends (trace w) ++ map (subscribeMsg (ID (cli w))) topics /\
  topicsOf (hubDrain (SubscribeMultiple topics w)) =
    foldl addTopicOnce (topicsOf (hubDrain w)) topics.
Proof.
  intros Hwf. destruct (SubscribeMultiple_sends topics w) as [Hs Ha].
  split; [exact Hs|].
  rewrite !topicsOf_hubDrain. unfold eventual at 1.
  rewrite (agree_topicsOf _ _ Ha).
  apply topicsOf_handleList_subscribe. by apply wf_handleList.
Qed.

Lemma UnsubscribeAll_sent (w : World) :
  exists ts,
    length ts = len (Topics (cli w)) /\
    sends (trace (UnsubscribeAll w)) =
      sends (trace w) ++ map (unsubscribeMsg (ID (cli w))) ts /\
    agree (eventual (UnsubscribeAll w))
          (handleList (map (unsubscribeMsg (ID (cli w))) ts) (eventual w)) /\
    (wfWorld w -> inbox w = [] ->
       head ts = head (topicsOf w) /\ last ts = last (topicsOf w)).
Proof.
  unfold UnsubscribeAll.
  set (N := len (Topics (cli w))). set (b0 := backing (Topics (cli w))).
  destruct (rangeUnsubscribe_sent N b0 N 0 w) as (ts & Hlen & Hs & Ha & Hinv).
  exists ts. split; [exact Hlen|]. split; [exact Hs|]. split; [exact Ha|].
  intros Hwf Hin.
  assert (Hcap : N <= length b0) by exact Hwf.
  assert (Hk : arrayKept N b0 w).
  { unfold arrayKept. fold N b0. split; [exact Hwf|]. split; [lia|].
    split; [exact Hcap|]. reflexivity. }
  assert (Ho : onlyUnsubscribes w) by (unfold onlyUnsubscribes; rewrite Hin; constructor).
  destruct (Hinv Hk Ho ltac:(lia)) as (Hlast & Hhead).
  unfold topicsOf, view. fold N b0.
  destruct (decide (N = 0)) as [H0 | H0].
  - rewrite H0 in *. destruct ts; [|discriminate Hlen]. by rewrite take_0.
  - split.
    + rewrite (Hhead Hin ltac:(lia)), head_lookup. by rewrite lookup_take_lt by lia.
    + rewrite (Hlast ltac:(lia) ltac:(lia)), last_lookup, length_take.
      replace (Init.Nat.pred (N `min` length b0)) with (N - 1) by lia.
      by rewrite lookup_take_lt by lia.
Qed.

(** X6. Whatever the Hub does meanwhile, [UnsubscribeAll] sends as many
    messages as [c.Topics] had elements when it started, all of them
    Unsubscribe messages of this client, and no other message; with an
    empty topic list it does nothing at all. *)
Theorem UnsubscribeAll_one_send_per_topic (w : World) :
  (exists ts, length ts = len (Topics (cli w)) /\
     sends (trace (UnsubscribeAll w)) =
       sends (trace w) ++ map (unsubscribeMsg (ID (cli w))) ts) /\
  publishes (trace (UnsubscribeAll w)) = publishes (trace w) /\
  (len (Topics (cli w)) = 0 -> UnsubscribeAll w = w).
Proof.
  split; [|split].
  - destruct (UnsubscribeAll_sent w) as (ts & Hlen & Hs & _). eauto.
  - destruct (evolves_rangeUnsubscribe (len (Topics (cli w))) 0 w)
      as (_ & _ & tr & Ht & Hq).
    unfold UnsubscribeAll. rewrite Ht. unfold publishes. rewrite omap_app.
    replace (omap _ tr) with (@nil PublishMessage); [by rewrite app_nil_r|].
    clear Ht. induction Hq as [|e tr He _ IH]; [done|].
    destruct e as [| [] | |]; simpl in *; try exact IH; tauto.
  - intros H0. unfold UnsubscribeAll. by rewrite H0.
Qed.

(** X7. When nothing is pending at the Hub as [UnsubscribeAll] starts, then
    under every schedule and channel capacity it sends one Unsubscribe per
    topic of the connection's topic list, the first one for the first topic
    of the list and the last one for its last topic: the first cell is read
    before anything is sent, and no removal writes to the last cell. *)
Theorem UnsubscribeAll_first_and_last (w : World) :
  wfWorld w ->
  inbox w = [] ->
  exists ts,
    length ts = length (topicsOf w) /\
    sends (trace (UnsubscribeAll w)) =
      sends (trace w) ++ map (unsubscribeMsg (ID (cli w))) ts /\
    head ts = head (topicsOf w) /\ last ts = last (topicsOf w).
Proof.
  intros Hwf Hin. destruct (UnsubscribeAll_sent w) as (ts & Hlen & Hs & _ & Hinv).
  exists ts. split; [|split; [exact Hs | by apply Hinv]].
  unfold topicsOf. by rewrite view_length.
Qed.

Lemma short_list_by_ends (ts l : list string) :
  length ts = length l -> length l <= 2 ->
  head ts = head l -> last ts = last l -> ts = l.
Proof.
  intros Hlen H2 Hh Hl.
  destruct l as [|x [|y [|z l]]], ts as [|a [|b [|c ts]]];
    simpl in *; try discriminate; try lia; congruence.
Qed.

Lemma UnsubscribeAll_short (w : World) :
  wfWorld w -> inbox w = [] -> len (Topics (cli w)) <= 2 ->
  sends (trace (UnsubscribeAll w)) =
    sends (trace w) ++ map (unsubscribeMsg (ID (cli w))) (topicsOf w) /\
  agree (eventual (UnsubscribeAll w))
        (handleList (map (unsubscribeMsg (ID (cli w))) (topicsOf w)) w).
Proof.
  intros Hwf Hin H2.
  destruct (UnsubscribeAll_sent w) as (ts & Hlen & Hs & Ha & Hinv).
  destruct (Hinv Hwf Hin) as (Hh & Hl).
  assert (Hts : ts = topicsOf w).
  { apply short_list_by_ends; try done.
    - unfold topicsOf. by rewrite view_length.
    - unfold topicsOf. by rewrite view_length. }
  subst ts. split; [exact Hs|].
  unfold eventual at 2 in Ha. by rewrite Hin in Ha.
Qed.

(** X8. With at most two topics in the list and nothing pending at the Hub,
    [UnsubscribeAll] is complete under every schedule and channel capacity:
    it sends an Unsubscribe for each topic of the list, in list order, and
    once the Hub has handled them the topic list is empty. *)
Theorem UnsubscribeAll_complete_up_to_two (w : World) :
  wfWorld w ->
  inbox w = [] ->
  len (Topics (cli w)) <= 2 ->
  sends (trace (UnsubscribeAll w)) =
    sends (trace w) ++ map (unsubscribeMsg (ID (cli w))) (topicsOf w) /\
  topicsOf (hubDrain (UnsubscribeAll w)) = [].
Proof.
  intros Hwf Hin H2. destruct (UnsubscribeAll_short w Hwf Hin H2) as [Hs Ha].
  split; [exact Hs|].
  rewrite topicsOf_hubDrain, (agree_topicsOf _ _ Ha).
  destruct (topicsOf_handleList_unsubscribe (ID (cli w)) (topicsOf w) w Hwf) as [_ Ht].
  rewrite Ht. rewrite <- (app_nil_r (topicsOf w)) at 1. apply removeFirst_all.
Qed.

(** X9. A subscribe frame received by a connection with at most two topics,
    nothing being pending at the Hub, replaces the topic list under every
    schedule and channel capacity: an Unsubscribe for each old topic in
    order, then a Subscribe for each decoded topic in order, and once the
    Hub has handled them the topic list is the decoded list with every
    repetition of a topic after its first occurrence left out. *)
Theorem resubscribe_complete_up_to_two
    (payload : string) (topics : list string) (w : World) :
  unmarshalAction json payload = Some "subscribe" ->
  unmarshalSubscriptions json payload = Some topics ->
  wfWorld w ->
  inbox w = [] ->
  len (Topics (cli w)) <= 2 ->
  let w' := handleMessage json payload w in
  sends (trace w') =
    sends (trace w) ++ map (unsubscribeMsg (ID (cli w))) (topicsOf w)
                    ++ map (subscribeMsg (ID (cli w))) topics /\
  topicsOf (hubDrain w') = foldl addTopicOnce [] topics.
Proof.
  intros Ha Hs Hwf Hin H2 w'. subst w'. unfold handleMessage.
  rewrite Ha, decide_True by reflexivity. rewrite Hs.
  set (w1 := emit _ w).
  destruct (UnsubscribeAll_short w1 Hwf Hin H2) as [Hsend Hagree].
  change (topicsOf w1) with (topicsOf w) in Hsend, Hagree.
  change (ID (cli w1)) with (ID (cli w)) in Hsend, Hagree.
  destruct (SubscribeMultiple_sends topics (UnsubscribeAll w1)) as [Hsend2 Hagree2].
  assert (Hid : ID (cli (UnsubscribeAll w1)) = ID (cli w)).
  { by destruct (evolves_rangeUnsubscribe (len (Topics (cli w1))) 0 w1) as [H _]. }
  rewrite Hid in Hsend2, Hagree2.
  split.
  - rewrite Hsend2, Hsend. subst w1. simpl. rewrite sends_app. simpl.
    by rewrite app_nil_r, <- app_assoc.
  - rewrite topicsOf_hubDrain. unfold eventual.
    rewrite (agree_topicsOf _ _ Hagree2).
    fold (eventual (UnsubscribeAll w1)).
    rewrite (agree_topicsOf _ _ (agree_handleList _ _ _ Hagree)).
    assert (H1 : agree (handleList (map (unsubscribeMsg (ID (cli w))) (topicsOf w)) w1)
                   (handleList (map (unsubscribeMsg (ID (cli w))) (topicsOf w)) w)).
    { apply agree_handleList. by split. }
    rewrite (agree_topicsOf _ _ (agree_handleList _ _ _ H1)).
    destruct (topicsOf_handleList_unsubscribe (ID (cli w)) (topicsOf w) w Hwf)
      as [Hwf' Ht].
    rewrite topicsOf_handleList_subscribe by exact Hwf'.
    rewrite Ht. rewrite <- (app_nil_r (topicsOf w)) at 1.
    by rewrite removeFirst_all.
Qed.

End PumpSends.

(** ** listenRead as a whole *)

Section ReadPump.
Context {PublishMessage : Type}.
Variable json : Decoders PublishMessage.
Local Abbreviation World := (@World PublishMessage).
Local Abbreviation Event := (@Event PublishMessage).

Lemma internal_publishes (tr : list Event) :
  Forall isInternal tr -> publishes tr = [] /\ written tr = [].
Proof.
  induction 1 as [|e tr He _ [IH1 IH2]]; [done|].
  destruct e; simpl in *; try done.
Qed.

Lemma evolves_internal (w w' : World) :
  evolves isInternal w w' ->
  publishes (trace w') = publishes (trace w) /\ written (trace w') = written (trace w).
Proof.
  intros (_ & _ & tr & Ht & Hq). destruct (internal_publishes tr Hq) as [H1 H2].
  rewrite Ht. unfold publishes, written in *. rewrite !omap_app, H1, H2.
  by rewrite !app_nil_r.
Qed.

Lemma internal_hubDrain (w : World) : evolves isInternal w (hubDrain w).
Proof. eapply evolves_weaken; [|apply evolves_hubRun]. by intros []. Qed.

Lemma internal_UnsubscribeAll (w : World) : evolves isInternal w (UnsubscribeAll w).
Proof.
  eapply evolves_weaken; [|apply evolves_rangeUnsubscribe].
  intros [| [] | |] [H|H]; simpl in *; tauto.
Qed.

Lemma internal_SubscribeMultiple (topics : list string) (w : World) :
  evolves isInternal w (SubscribeMultiple topics w).
Proof.
  eapply evolves_weaken; [|apply evolves_SubscribeMultiple].
  intros [| [] | |] [H|H]; simpl in *; tauto.
Qed.

(** One frame: what it gives to [Hub.Publish], and nothing to the socket. *)
Lemma handleMessage_publishes (payload : string) (w : World) :
  publishes (trace (handleMessage json payload w)) =
    publishes (trace w) ++ framePublishes json payload /\
  written (trace (handleMessage json payload w)) = written (trace w).
Proof.
  unfold handleMessage, framePublishes.
  assert (Hemit : forall (e : Event) (w0 : World), isInternal e ->
            publishes (trace (emit e w0)) = publishes (trace w0) /\
            written (trace (emit e w0)) = written (trace w0)).
  { intros e w0 He. apply evolves_internal. by apply evolves_emit. }
  destruct (unmarshalAction json payload) as [action|].
  2:{ rewrite app_nil_r. by apply Hemit. }
  case_decide.
  - rewrite app_nil_r.
    set (w1 := emit _ w).
    assert (H1 : evolves isInternal w (UnsubscribeAll w1)).
    { eapply evolves_trans; [|apply internal_UnsubscribeAll].
      subst w1. by apply evolves_emit. }
    destruct (unmarshalSubscriptions json payload) as [topics|].
    + apply evolves_internal.
      eapply evolves_trans; [exact H1 | apply internal_SubscribeMultiple].
    + apply evolves_internal.
      eapply evolves_trans; [exact H1 | by apply evolves_emit].
  - destruct (unmarshalPublish json payload) as [m|].
    + unfold Publish, publishes, written. simpl. rewrite !omap_app. simpl.
      by rewrite app_nil_r.
    + rewrite app_nil_r. by apply Hemit.
Qed.

Lemma readLoop_publishes (reads : list ReadResult) (w : World) :
  publishes (trace (fst (readLoop json reads w))) =
    publishes (trace w) ++ readsPublish json reads /\
  written (trace (fst (readLoop json reads w))) = written (trace w).
Proof.
  revert w. induction reads as [|r rest IH]; intros w; simpl.
  - by rewrite app_nil_r.
  - destruct r as [payload|u]; simpl.
    + destruct (IH (handleMessage json payload (hubDrain w))) as [H1 H2].
      destruct (handleMessage_publishes payload (hubDrain w)) as [H3 H4].
      destruct (evolves_internal _ _ (internal_hubDrain w)) as [H5 H6].
      rewrite H1, H2, H3, H4, H5, H6. by rewrite <- app_assoc.
    + rewrite app_nil_r. unfold publishes, written. rewrite !omap_app.
      destruct u; simpl; by rewrite !app_nil_r.
Qed.

Lemma readLoop_untilError (reads : list ReadResult) (w : World) :
  readLoop json (untilError reads) w = readLoop json reads w.
Proof.
  revert w. induction reads as [|r rest IH]; intros w; [done|].
  destruct r as [payload|u]; simpl; [apply IH | done].
Qed.

Lemma internal_listenReadDeferred (w : World) :
  evolves isInternal w (listenReadDeferred w).
Proof.
  unfold listenReadDeferred.
  apply (evolves_trans _ _
           (emit (EvLog "[DEBUG] Calling unregister from listenRead" []) w)).
  - by apply evolves_emit.
  - apply evolves_chanSend; [by intros [] | done].
Qed.

(** X10. Nothing that [ReadMessage] would return after its first error is
    ever handled: [listenRead] behaves as on the reads up to and including
    that error. *)
Theorem listenRead_stops_at_first_error (reads : list ReadResult) (w : World) :
  listenRead json reads w = listenRead json (untilError reads) w /\
  forall (before : list string) (u : bool) (after : list ReadResult),
    listenRead json (map ReadMsg before ++ ReadErr u :: after) w =
    listenRead json (map ReadMsg before ++ [ReadErr u]) w.
Proof.
  assert (H : forall rs, listenRead json rs w = listenRead json (untilError rs) w).
  { intros rs. unfold listenRead. by rewrite readLoop_untilError. }
  split; [apply H|]. intros before u after.
  rewrite (H (map ReadMsg before ++ ReadErr u :: after)).
  rewrite (H (map ReadMsg before ++ [ReadErr u])). f_equal.
  induction before as [|p before IH]; simpl; [done | by rewrite IH].
Qed.

(** X11. The messages [listenRead] hands to [Hub.Publish] are, in arrival
    order, the decoded publish messages of the frames read before the
    first error whose action is not "subscribe"; frames that do not decode
    and subscribe frames contribute nothing. *)
Theorem listenRead_publishes (reads : list ReadResult) (w : World) :
  publishes (trace (fst (listenRead json reads w))) =
    publishes (trace w) ++ readsPublish json reads.
Proof.
  unfold listenRead.
  set (w1 := setCli _ w).
  set (w2 := if wsClosed (ws (cli w1)) then _ else w1).
  assert (H2 : publishes (trace w2) = publishes (trace w)).
  { subst w2. destruct (wsClosed (ws (cli w1))); [|done].
    unfold publishes. simpl. rewrite omap_app. simpl. by rewrite app_nil_r. }
  destruct (readLoop_publishes reads w2) as [H3 _].
  destruct (readLoop json reads w2) as [w3 exited]. simpl in H3.
  destruct exited; cbn [fst]; [|by rewrite H3, H2].
  destruct (evolves_internal _ _ (internal_listenReadDeferred w3)) as [H5 _].
  by rewrite H5, H3, H2.
Qed.

End ReadPump.

(** ** listenWrite as a whole *)

Section WritePump.
Context {PublishMessage : Type}.
Local Abbreviation World := (@World PublishMessage).
Local Abbreviation Event := (@Event PublishMessage).

Lemma writeSide_refl (w : World) : writeSide w w.
Proof. by repeat split. Qed.

Lemma writeSide_trans (w1 w2 w3 : World) :
  writeSide w1 w2 -> writeSide w2 w3 -> writeSide w1 w3.
Proof.
  intros (?&?&?&?&?&?&?&?&?) (?&?&?&?&?&?&?&?&?). repeat split; congruence.
Qed.

Lemma writeSide_emit (e : Event) (w : World) :
  match e with EvSend _ | EvPublish _ => False | _ => True end ->
  writeSide w (emit e w).
Proof.
  intros He. unfold writeSide, sends, publishes. simpl. rewrite !omap_app.
  destruct e; try destruct He; simpl; rewrite !app_nil_r; by repeat split.
Qed.

Lemma writeSide_writeLoop (steps : list WriteStep) (w : World) :
  writeSide w (fst (writeLoop steps w)) /\
  ws (cli (fst (writeLoop steps w))) = ws (cli w).
Proof.
  revert w. induction steps as [|st rest IH]; intros w; simpl.
  - split; [apply writeSide_refl | done].
  - destruct st as [ok|ok].
    + destruct (chBuf (send (cli w))) as [|message buf] eqn:Hbuf.
      * destruct (chClosed (send (cli w))); [|apply IH].
        destruct ok; simpl; (split; [by apply writeSide_emit | done]).
      * set (w1 := setCli _ w).
        assert (H1 : writeSide w w1) by (subst w1; by repeat split).
        destruct ok; simpl.
        -- destruct (IH (emit (EvWrite TextMessage message) w1)) as [Hs Hw].
           split; [|by rewrite Hw].
           eapply writeSide_trans; [exact H1|].
           eapply writeSide_trans; [|exact Hs]. by apply writeSide_emit.
        -- split; [|done]. eapply writeSide_trans; [exact H1|]. by apply writeSide_emit.
    + destruct ok; simpl.
      * destruct (IH (emit (EvWrite PingMessage "") w)) as [Hs Hw].
        split; [|by rewrite Hw].
        eapply writeSide_trans; [|exact Hs]. by apply writeSide_emit.
      * split; [by apply writeSide_emit | done].
Qed.

(** X13. [listenWrite] touches only the socket and the buffer of the
    outbound queue: it never sets the close guard, never closes the queue,
    never changes the topic list, and sends nothing to the Hub.  It calls
    [Close] on the transport exactly once, when it returns, and not at all
    while it is still running. *)
Theorem listenWrite_closes_transport_once (steps : list WriteStep) (w : World) :
  let '(w', returned) := listenWrite steps w in
  writeSide w w' /\
  wsCloseCalls (ws (cli w')) = wsCloseCalls (ws (cli w)) + (if returned then 1 else 0) /\
  (if returned then wsClosed (ws (cli w')) = true else ws (cli w') = ws (cli w)).
Proof.
  unfold listenWrite.
  destruct (writeSide_writeLoop steps w) as [Hs Hw].
  destruct (writeLoop steps w) as [w1 returned]. simpl in Hs, Hw.
  destruct returned.
  - unfold listenWriteDeferred. simpl. rewrite Hw.
    split; [|split; [lia | done]].
    eapply writeSide_trans; [exact Hs|]. by repeat split.
  - split; [exact Hs|]. split; [rewrite Hw; lia | exact Hw].
Qed.

Lemma textFrames_emit (e : Event) (w : World) :
  textFrames (trace (emit e w)) = textFrames (trace w) ++ textFrames [e].
Proof. unfold textFrames. simpl. by rewrite omap_app. Qed.

Lemma writeLoop_fifo (steps : list WriteStep) (w : World) :
  exists texts lost,
    textFrames (trace (fst (writeLoop steps w))) = textFrames (trace w) ++ texts /\
    chBuf (send (cli w)) = texts ++ lost ++ chBuf (send (cli (fst (writeLoop steps w)))) /\
    length lost <= 1 /\
    (lost ≠ [] -> snd (writeLoop steps w) = true).
Proof.
  revert w. induction steps as [|st rest IH]; intros w; simpl.
  - exists [], []. rewrite app_nil_r. repeat split; simpl; try lia; try done; try congruence.
  - destruct st as [ok|ok].
    + destruct (chBuf (send (cli w))) as [|message buf] eqn:Hbuf.
      * destruct (chClosed (send (cli w))).
        -- exists [], []. destruct ok; cbn [fst snd]; rewrite textFrames_emit; simpl;
             rewrite app_nil_r, Hbuf; repeat split; simpl; try lia; try done; try congruence.
        -- destruct (IH w) as (texts & lost & H1 & H2 & H3 & H4).
           exists texts, lost. rewrite Hbuf in H2. repeat split; simpl; try lia; try done; try congruence.
      * set (w1 := setCli _ w). destruct ok; cbn [fst snd].
        -- destruct (IH (emit (EvWrite TextMessage message) w1))
             as (texts & lost & H1 & H2 & H3 & H4).
           exists (message :: texts), lost.
           rewrite H1, textFrames_emit. simpl in *.
           rewrite <- app_assoc. split; [done|]. split; [by rewrite H2|]. split; [exact H3 | exact H4].
        -- exists [], [message]. rewrite textFrames_emit. simpl.
           rewrite app_nil_r. repeat split; simpl; try lia; try done; try congruence.
    + destruct ok; cbn [fst snd].
      * destruct (IH (emit (EvWrite PingMessage "") w)) as (texts & lost & H1 & H2 & H3 & H4).
        exists texts, lost. rewrite H1, textFrames_emit. simpl in *.
        rewrite app_nil_r. repeat split; simpl; try lia; try done; try congruence.
      * exists [], []. rewrite textFrames_emit. simpl. rewrite app_nil_r.
        repeat split; simpl; try lia; try done; try congruence.
Qed.

(** X14. While nothing is added to the outbound queue, [listenWrite]
    writes its payloads as text frames in queue order and loses at most
    one: what the queue held at the start is the payloads written,
    followed by the one payload whose write failed (if any, and then the
    pump has returned), followed by what is still in the queue. *)
Theorem listenWrite_fifo (steps : list WriteStep) (w : World) :
  let '(w', returned) := listenWrite steps w in
  exists texts lost,
    textFrames (trace w') = textFrames (trace w) ++ texts /\
    chBuf (send (cli w)) = texts ++ lost ++ chBuf (send (cli w')) /\
    length lost <= 1 /\
    (lost ≠ [] -> returned = true).
Proof.
  unfold listenWrite.
  destruct (writeLoop_fifo steps w) as (texts & lost & H1 & H2 & H3 & H4).
  destruct (writeLoop steps w) as [w1 returned]. simpl in *.
  destruct returned; exists texts, lost; by repeat split.
Qed.

Lemma written_emit (e : Event) (w : World) :
  written (trace (emit e w)) = written (trace w) ++ written [e].
Proof. unfold written. simpl. by rewrite omap_app. Qed.

Lemma writeLoop_close_frame (steps : list WriteStep) (w : World) :
  exists frames,
    written (trace (fst (writeLoop steps w))) = written (trace w) ++ frames /\
    (Forall notCloseFrame frames \/
     exists before,
       frames = before ++ [(CloseMessage, "")] /\ Forall notCloseFrame before /\
       snd (writeLoop steps w) = true /\
       chBuf (send (cli (fst (writeLoop steps w)))) = [] /\
       chClosed (send (cli (fst (writeLoop steps w)))) = true).
Proof.
  revert w. induction steps as [|st rest IH]; intros w; simpl.
  - exists []. rewrite app_nil_r. split; [done|]. left. constructor.
  - destruct st as [ok|ok].
    + destruct (chBuf (send (cli w))) as [|message buf] eqn:Hbuf.
      * destruct (chClosed (send (cli w))) eqn:Hcl; [|apply IH].
        destruct ok; cbn [fst snd]; rewrite written_emit; simpl.
        -- exists [(CloseMessage, "")]. split; [done|]. right. exists [].
           by repeat split.
        -- exists []. split; [done|]. left. constructor.
      * set (w1 := setCli _ w). destruct ok; cbn [fst snd].
        -- destruct (IH (emit (EvWrite TextMessage message) w1)) as (frames & H1 & H2).
           exists ((TextMessage, message) :: frames).
           rewrite H1, written_emit. simpl. rewrite <- app_assoc.
           split; [done|].
           destruct H2 as [H2 | (before & Hf & Hb & Hrest)].
           ++ left. constructor; [discriminate | exact H2].
           ++ right. exists ((TextMessage, message) :: before). subst frames.
              split; [done|]. split; [|exact Hrest].
              constructor; [discriminate | exact Hb].
        -- exists []. rewrite written_emit. simpl. split; [done|]. left. constructor.
    + destruct ok; cbn [fst snd].
      * destruct (IH (emit (EvWrite PingMessage "") w)) as (frames & H1 & H2).
        exists ((PingMessage, "") :: frames).
        rewrite H1, written_emit. simpl. rewrite <- app_assoc.
        split; [done|].
        destruct H2 as [H2 | (before & Hf & Hb & Hrest)].
        -- left. constructor; [discriminate | exact H2].
        -- right. exists ((PingMessage, "") :: before). subst frames.
           split; [done|]. split; [|exact Hrest].
           constructor; [discriminate | exact Hb].
      * exists []. rewrite written_emit. simpl. split; [done|]. left. constructor.
Qed.

(** X15. [listenWrite] writes a close frame at most once, as the last frame
    it writes, with an empty payload, and only on finding the outbound
    queue closed and drained; it has then returned. *)
Theorem listenWrite_close_frame_last (steps : list WriteStep) (w : World) :
  let '(w', returned) := listenWrite steps w in
  exists frames,
    written (trace w') = written (trace w) ++ frames /\
    (Forall notCloseFrame frames \/
     exists before,
       frames = before ++ [(CloseMessage, "")] /\ Forall notCloseFrame before /\
       returned = true /\
       chBuf (send (cli w')) = [] /\ chClosed (send (cli w')) = true).
Proof.
  unfold listenWrite.
  destruct (writeLoop_close_frame steps w) as (frames & H1 & H2).
  destruct (writeLoop steps w) as [w1 returned]. simpl in *.
  destruct returned; exists frames; (split; [exact H1|]); exact H2.
Qed.

Lemma writeLoop_healthy (steps : list WriteStep) (w : World) :
  chClosed (send (cli w)) = false ->
  allWritesOk steps ->
  snd (writeLoop steps w) = false /\
  textFrames (trace (fst (writeLoop steps w))) =
    textFrames (trace w) ++ take (sendTurns steps) (chBuf (send (cli w))) /\
  chBuf (send (cli (fst (writeLoop steps w)))) =
    drop (sendTurns steps) (chBuf (send (cli w))).
Proof.
  revert w. induction steps as [|st rest IH]; intros w Hopen Hok; simpl.
  - rewrite take_0, drop_0, app_nil_r. by repeat split.
  - apply Forall_cons in Hok as [Hst Hok]. destruct st as [ok|ok]; subst ok.
    + destruct (chBuf (send (cli w))) as [|message buf] eqn:Hbuf.
      * rewrite Hopen. destruct (IH w Hopen Hok) as (H1 & H2 & H3).
        rewrite Hbuf in H2, H3. rewrite take_nil, drop_nil in *. by repeat split.
      * set (w1 := emit _ _).
        destruct (IH w1) as (H1 & H2 & H3); [exact Hopen | exact Hok |].
        split; [exact H1|]. split.
        -- rewrite H2. subst w1. rewrite textFrames_emit. simpl.
           by rewrite <- app_assoc.
        -- rewrite H3. by subst w1.
    + set (w1 := emit _ w).
      destruct (IH w1) as (H1 & H2 & H3); [exact Hopen | exact Hok |].
      split; [exact H1|]. split.
      * rewrite H2. subst w1. rewrite textFrames_emit. simpl. by rewrite app_nil_r.
      * rewrite H3. by subst w1.
Qed.

(** X16. As long as the outbound queue is open and every write succeeds,
    [listenWrite] does not return and does not close the transport: after
    any number of turns it has written, as text frames and in order, as
    many payloads from the front of the queue as there were turns for the
    queue (or all of them), and the others are still queued. *)
Theorem listenWrite_keeps_running (steps : list WriteStep) (w : World) :
  chClosed (send (cli w)) = false ->
  allWritesOk steps ->
  let '(w', returned) := listenWrite steps w in
  returned = false /\
  ws (cli w') = ws (cli w) /\
  textFrames (trace w') =
    textFrames (trace w) ++ take (sendTurns steps) (chBuf (send (cli w))) /\
  chBuf (send (cli w')) = drop (sendTurns steps) (chBuf (send (cli w))).
Proof.
  intros Hopen Hok. unfold listenWrite.
  destruct (writeLoop_healthy steps w Hopen Hok) as (H1 & H2 & H3).
  destruct (writeSide_writeLoop steps w) as [_ Hw].
  destruct (writeLoop steps w) as [w1 returned]. simpl in *. subst returned.
  by repeat split.
Qed.

End WritePump.

(** * Examples *)

(** C2, counterexample. With "news" twice in the topic list, handling
    Unsubscribe("news", c1) leaves "news" in the list. *)
Lemma unsubscribe_leaves_second_occurrence :
  topicsOf twiceSubscribed = ["news"; "news"] /\
  topicsOf (hubHandle (MsgUnsubscribe news) twiceSubscribed) = ["news"] /\
  ~ (("news" ∉ topicsOf (hubHandle (MsgUnsubscribe news) twiceSubscribed)) /\
     ("c1" ∉ subscribersOf "news" (hubHandle (MsgUnsubscribe news) twiceSubscribed))).
Proof.
  split; [reflexivity|]. split; [reflexivity|].
  intros [Hn _]. apply Hn. vm_compute. apply list_elem_of_In. by left.
Qed.

Lemma unsubscribe_removes_first_occurrence_witness :
  wfWorld onceSubscribed /\
  occurrences "news" (topicsOf onceSubscribed) <= 1 /\
  ("c1" ∉ subscribersOf "news" (hubHandle (MsgUnsubscribe news) onceSubscribed)) /\
  topicsOf (hubHandle (MsgUnsubscribe news) onceSubscribed) = [] /\
  ("news" ∉ topicsOf (hubHandle (MsgUnsubscribe news) onceSubscribed)).
Proof.
  assert (Hwf : wfWorld onceSubscribed) by (vm_compute; lia).
  assert (Hocc : occurrences "news" (topicsOf onceSubscribed) <= 1)
    by (vm_compute; lia).
  destruct (unsubscribe_removes_first_occurrence news onceSubscribed Hwf)
    as (Hsub & Htop & _ & Hgone).
  split; [exact Hwf|]. split; [exact Hocc|]. split; [exact Hsub|].
  split; [exact Htop | exact (Hgone Hocc)].
Defined.

Lemma subscribe_keeps_topics_distinct_witness :
  wfWorld c1World /\
  NoDup (topicsOf c1World) /\
  topicsOf (hubHandle (MsgSubscribe news) c1World) = ["news"] /\
  NoDup (topicsOf
           (hubDrain (setInbox [MsgSubscribe news; MsgSubscribe news;
                                MsgUnsubscribe news; MsgSubscribe news]
                        c1World))).
Proof.
  assert (Hwf : wfWorld c1World) by (vm_compute; lia).
  assert (Hnd : NoDup (topicsOf c1World)) by constructor.
  destruct (subscribe_keeps_topics_distinct
              [MsgSubscribe news; MsgSubscribe news; MsgUnsubscribe news; MsgSubscribe news]
              c1World Hwf Hnd) as [Hone Hall].
  split; [exact Hwf|]. split; [exact Hnd|]. split; [|exact Hall].
  rewrite Hone. vm_compute. reflexivity.
Defined.

(** C4, counterexample. After the Hub has closed the connection through
    [close], the exit of the write pump calls [Close] on the transport
    again; and when the write pump is first, [close] calls it a second
    time (and then leaves the queue open). *)
Lemma write_pump_close_bypasses_guard :
  wsCloseCalls (ws (cli (closeRequests [ByHub] c1World))) = 1 /\
  wsCloseCalls (ws (cli (closeRequests [ByHub; ByWritePump] c1World))) = 2 /\
  wsCloseCalls (ws (cli (closeRequests [ByWritePump; ByHub] c1World))) = 2 /\
  ~ (forall (rs : list CloseRequest) (r : CloseRequest),
       rs ≠ [] ->
       wsCloseCalls (ws (cli (closeRequest r (closeRequests rs c1World)))) =
       wsCloseCalls (ws (cli (closeRequests rs c1World)))).
Proof.
  split; [reflexivity|]. split; [reflexivity|]. split; [reflexivity|].
  intros H. specialize (H [ByHub] ByWritePump ltac:(discriminate)).
  vm_compute in H. discriminate H.
Qed.

Lemma close_guard_witness :
  closed (cli c1World) = false /\
  chCloses (send (cli c1World)) = 0 /\
  chCloses (send (cli (closeRequests [ByReadPump; ByWritePump; ByHub; ByReadPump] c1World)))
    <= 1 /\
  wsCloseCalls (ws (cli (closeRequests [ByReadPump; ByWritePump; ByHub; ByReadPump] c1World)))
    <= 2.
Proof.
  split; [reflexivity|]. split; [reflexivity|].
  destruct (close_guard [ByReadPump; ByWritePump; ByHub; ByReadPump] c1World
              eq_refl eq_refl) as (Hq & Hw & _).
  split; [exact Hq | exact Hw].
Defined.

Lemma close_after_failed_transport_close_witness :
  closed (cli afterWritePump) = false /\
  snd (wsClose (ws (cli afterWritePump))) = true /\
  closed (cli (close afterWritePump)) = true /\
  chCloses (send (cli (close afterWritePump))) = 0 /\
  chCloses (send (cli (closeRequests [ByHub; ByReadPump; ByWritePump]
                         (close afterWritePump)))) = 0.
Proof.
  split; [reflexivity|]. split; [reflexivity|].
  destruct (close_after_failed_transport_close afterWritePump eq_refl eq_refl)
    as (Hs & Hc & _ & Hall & _).
  split; [exact Hc|]. split.
  - rewrite Hs. reflexivity.
  - rewrite Hall. reflexivity.
Defined.

Lemma decode_error_not_fatal_witness :
  decodeFails exampleJson "subscribe, topics malformed" /\
  fst (readLoop exampleJson
         [ReadMsg "subscribe, topics malformed"; ReadMsg "publish rain to weather"]
         onceSubscribed)
  = emit (EvPublish "weather: rain")
      (hubDrain (handleMessage exampleJson "subscribe, topics malformed" onceSubscribed)) /\
  sameConn onceSubscribed
    (handleMessage exampleJson "subscribe, topics malformed" onceSubscribed).
Proof.
  assert (Hfail : decodeFails exampleJson "subscribe, topics malformed").
  { right. left. split; reflexivity. }
  destruct (decode_error_not_fatal exampleJson "subscribe, topics malformed"
              [ReadMsg "publish rain to weather"] onceSubscribed Hfail)
    as (Hloop & _ & Hsame).
  split; [exact Hfail|]. split; [|exact Hsame].
  rewrite Hloop. reflexivity.
Defined.

Lemma default_action_publishes_once_witness :
  unmarshalAction exampleJson "shout rain to weather" = Some "shout" /\
  "shout" ≠ "subscribe" /\
  unmarshalPublish exampleJson "shout rain to weather" = Some "weather: rain" /\
  trace (handleMessage exampleJson "shout rain to weather" onceSubscribed)
  = trace onceSubscribed ++ [EvPublish "weather: rain"].
Proof.
  assert (Hne : "shout" ≠ "subscribe") by discriminate.
  split; [reflexivity|]. split; [exact Hne|]. split; [reflexivity|].
  exact (proj1 (proj2 (default_action_publishes_once exampleJson
                         "shout rain to weather" "shout" "weather: rain" []
                         onceSubscribed eq_refl Hne eq_refl))).
Defined.

Lemma resubscribe_skips_a_topic_witness :
  unmarshalAction exampleJson "subscribe to nothing" = Some "subscribe" /\
  unmarshalSubscriptions exampleJson "subscribe to nothing" = Some [] /\
  topicsOf (hubDrain (handleMessage exampleJson "subscribe to nothing" (fourTopics 0 [])))
  = ["c"].
Proof.
  split; [reflexivity|]. split; [reflexivity|].
  destruct (resubscribe_skips_a_topic exampleJson "subscribe to nothing" []
              eq_refl eq_refl) as (_ & _ & [(_ & H & _) | (_ & H & _)]);
    [exact H | vm_compute in H; discriminate H].
Defined.

Lemma malformed_resubscribe_keeps_a_topic_witness :
  unmarshalAction exampleJson "subscribe, topics malformed" = Some "subscribe" /\
  unmarshalSubscriptions exampleJson "subscribe, topics malformed" = None /\
  topicsOf (hubDrain (handleMessage exampleJson "subscribe, topics malformed"
                        (fourTopics 0 [1; 1; 1; 1])))
  = ["b"].
Proof.
  split; [reflexivity|]. split; [reflexivity|].
  destruct (malformed_resubscribe_keeps_a_topic exampleJson
              "subscribe, topics malformed" [1; 1; 1; 1] eq_refl eq_refl)
    as (_ & _ & _ & _ & [(_ & H & _) | (_ & H & _)]);
    [vm_compute in H; discriminate H | exact H].
Defined.

(** ** Examples for the further properties *)

Lemma RemoveTopic_in_place_witness :
  wfWorld (fourTopics (PublishMessage := string) 0 []) /\
  ("a" ∈ topicsOf (fourTopics (PublishMessage := string) 0 [])) /\
  cap (Topics (cli (RemoveTopic "a" (fourTopics (PublishMessage := string) 0 []))))
  = cap (Topics (cli (fourTopics (PublishMessage := string) 0 []))) /\
  len (Topics (cli (RemoveTopic "a" (fourTopics (PublishMessage := string) 0 []))))
  = len (Topics (cli (fourTopics (PublishMessage := string) 0 []))) - 1.
Proof.
  assert (Hwf : wfWorld (fourTopics (PublishMessage := string) 0 []))
    by (vm_compute; lia).
  assert (Hin : "a" ∈ topicsOf (fourTopics (PublishMessage := string) 0 [])).
  { vm_compute. apply list_elem_of_In. by left. }
  destruct (RemoveTopic_in_place "a" _ Hwf Hin) as (Hcap & Hlen & _ & _).
  split; [exact Hwf|]. split; [exact Hin|]. split; [exact Hcap | exact Hlen].
Defined.

Lemma AddTopic_RemoveTopic_roundtrip_witness :
  wfWorld onceSubscribed /\
  ("sport" ∉ topicsOf onceSubscribed) /\
  topicsOf (RemoveTopic "sport" (AddTopic "sport" onceSubscribed)) = ["news"].
Proof.
  assert (Hwf : wfWorld onceSubscribed) by (vm_compute; lia).
  assert (Hn : "sport" ∉ topicsOf onceSubscribed).
  { intros H. apply elem_of_cons in H as [H|H]; [discriminate H|].
    by apply elem_of_nil in H. }
  split; [exact Hwf|]. split; [exact Hn|].
  rewrite (AddTopic_RemoveTopic_roundtrip "sport" onceSubscribed Hwf Hn).
  vm_compute. reflexivity.
Defined.

Lemma AddTopic_reuses_removed_cell_witness :
  wfWorld twiceSubscribed /\
  ("news" ∈ topicsOf twiceSubscribed) /\
  cap (Topics (cli (AddTopic "sport" (RemoveTopic "news" twiceSubscribed)))) = 2 /\
  topicsOf (AddTopic "sport" (RemoveTopic "news" twiceSubscribed)) = ["news"; "sport"].
Proof.
  assert (Hwf : wfWorld twiceSubscribed) by (vm_compute; lia).
  assert (Hin : "news" ∈ topicsOf twiceSubscribed).
  { apply elem_of_cons. by left. }
  destruct (AddTopic_reuses_removed_cell "news" "sport" twiceSubscribed Hwf Hin)
    as (Hcap & _ & Htop).
  split; [exact Hwf|]. split; [exact Hin|]. split.
  - rewrite Hcap. vm_compute. reflexivity.
  - rewrite Htop. vm_compute. reflexivity.
Defined.

Lemma AddTopic_appends_always_witness :
  wfWorld onceSubscribed /\
  ("news" ∈ topicsOf onceSubscribed) /\
  topicsOf (AddTopic "news" onceSubscribed) = ["news"; "news"] /\
  ~ NoDup (topicsOf (AddTopic "news" onceSubscribed)).
Proof.
  assert (Hwf : wfWorld onceSubscribed) by (vm_compute; lia).
  assert (Hin : "news" ∈ topicsOf onceSubscribed).
  { apply elem_of_cons. by left. }
  destruct (AddTopic_appends_always "news" onceSubscribed Hwf) as (Htop & _ & _ & Hdup).
  split; [exact Hwf|]. split; [exact Hin|]. split; [|exact (Hdup Hin)].
  rewrite Htop. vm_compute. reflexivity.
Defined.

Lemma SubscribeMultiple_in_order_witness :
  wfWorld onceSubscribed /\
  topicsOf (hubDrain (SubscribeMultiple ["sport"; "news"; "sport"] onceSubscribed))
  = ["news"; "sport"].
Proof.
  assert (Hwf : wfWorld onceSubscribed) by (vm_compute; lia).
  split; [exact Hwf|].
  rewrite (proj2 (SubscribeMultiple_in_order ["sport"; "news"; "sport"]
                    onceSubscribed Hwf)).
  vm_compute. reflexivity.
Defined.

Lemma UnsubscribeAll_first_and_last_witness :
  wfWorld (fourTopics (PublishMessage := string) 0 [1; 1; 1; 1]) /\
  inbox (fourTopics (PublishMessage := string) 0 [1; 1; 1; 1]) = [] /\
  exists ts,
    length ts = 4 /\
    sends (trace (UnsubscribeAll (fourTopics (PublishMessage := string) 0 [1; 1; 1; 1]))) =
      sends (trace (fourTopics (PublishMessage := string) 0 [1; 1; 1; 1]))
      ++ map (unsubscribeMsg "c1") ts /\
    head ts = Some "a" /\ last ts = Some "d".
Proof.
  assert (Hwf : wfWorld (fourTopics (PublishMessage := string) 0 [1; 1; 1; 1]))
    by (vm_compute; lia).
  split; [exact Hwf|]. split; [reflexivity|].
  destruct (UnsubscribeAll_first_and_last _ Hwf eq_refl) as (ts & Hlen & Hs & Hh & Hl).
  exists ts. split; [exact Hlen|]. split; [exact Hs|]. split; [exact Hh | exact Hl].
Defined.

Lemma UnsubscribeAll_complete_up_to_two_witness :
  wfWorld twoTopics /\
  inbox twoTopics = [] /\
  len (Topics (cli twoTopics)) <= 2 /\
  topicsOf twoTopics = ["a"; "b"] /\
  topicsOf (hubDrain (UnsubscribeAll twoTopics)) = [].
Proof.
  assert (Hwf : wfWorld twoTopics) by (vm_compute; lia).
  assert (H2 : len (Topics (cli twoTopics)) <= 2) by (vm_compute; lia).
  split; [exact Hwf|]. split; [reflexivity|]. split; [exact H2|].
  split; [reflexivity|].
  exact (proj2 (UnsubscribeAll_complete_up_to_two twoTopics Hwf eq_refl H2)).
Defined.

Lemma resubscribe_complete_up_to_two_witness :
  unmarshalAction exampleJson "subscribe to sport, news, sport" = Some "subscribe" /\
  unmarshalSubscriptions exampleJson "subscribe to sport, news, sport"
    = Some ["sport"; "news"; "sport"] /\
  wfWorld twoTopics /\
  inbox twoTopics = [] /\
  len (Topics (cli twoTopics)) <= 2 /\
  topicsOf (hubDrain (handleMessage exampleJson "subscribe to sport, news, sport" twoTopics))
  = ["sport"; "news"].
Proof.
  assert (Hwf : wfWorld twoTopics) by (vm_compute; lia).
  assert (H2 : len (Topics (cli twoTopics)) <= 2) by (vm_compute; lia).
  split; [reflexivity|]. split; [reflexivity|]. split; [exact Hwf|].
  split; [reflexivity|]. split; [exact H2|].
  rewrite (proj2 (resubscribe_complete_up_to_two exampleJson
                    "subscribe to sport, news, sport" ["sport"; "news"; "sport"]
                    twoTopics eq_refl eq_refl Hwf eq_refl H2)).
  vm_compute. reflexivity.
Defined.

Lemma listenWrite_keeps_running_witness :
  chClosed (send (cli threeQueued)) = false /\
  allWritesOk [FromSend true; FromTicker true; FromSend true] /\
  snd (listenWrite [FromSend true; FromTicker true; FromSend true] threeQueued) = false /\
  textFrames (trace (fst (listenWrite [FromSend true; FromTicker true; FromSend true]
                            threeQueued))) = ["m1"; "m2"] /\
  chBuf (send (cli (fst (listenWrite [FromSend true; FromTicker true; FromSend true]
                           threeQueued)))) = ["m3"].
Proof.
  assert (Hok : allWritesOk [FromSend true; FromTicker true; FromSend true])
    by (repeat constructor).
  pose proof (listenWrite_keeps_running
                [FromSend true; FromTicker true; FromSend true] threeQueued
                eq_refl Hok) as H.
  destruct (listenWrite [FromSend true; FromTicker true; FromSend true] threeQueued)
    as [w' returned].
  destruct H as (Hr & _ & Ht & Hb). cbn [fst snd].
  split; [reflexivity|]. split; [exact Hok|]. split; [exact Hr|].
  split; [rewrite Ht; vm_compute; reflexivity | rewrite Hb; vm_compute; reflexivity].
Defined.
